(** * TopoNetX: the [Simplex] and [SimplexView] classes

    A shallow embedding of [toponetx/classes/simplex.py] and the
    properties of its storage engine.

    Nodes are Python integers ([Z]).  A [frozenset] of nodes is a
    [gset Z]; the per-dimension dictionaries of a [SimplexView] are
    [gmap]s keyed by such sets; the record stored under a key is the
    Python dictionary itself, a [gmap string pyval], so that keyword
    attributes live next to the two bookkeeping entries ["is_maximal"]
    and ["membership"], as in the source. *)

From stdpp Require Import gmap strings list fin_maps fin_sets sorting.
From Stdlib Require Import ZArith Lia.

Open Scope string_scope.
Open Scope Z_scope.

Set Warnings "-clear-no-such-hyp".

(** ** Python values and exceptions *)

(** The values found in a record: the flag, the membership set and
    user attributes. *)
Inductive pyval :=
  | VBool (b : bool)
  | VInt (z : Z)
  | VSet (s : gset (gset Z)).

#[global] Instance pyval_eq_dec : EqDecision pyval.
Proof. solve_decision. Defined.

(** Truth value of an object in an [if]. *)
Definition truthy (v : pyval) : bool :=
  match v with
  | VBool b => b
  | VInt z => negb (z =? 0)
  | VSet s => negb (bool_decide (s = ∅))
  end.

Inductive exn :=
  | ValueError | KeyError | IndexError | TypeError
  | AttributeError | UnboundLocalError.

#[global] Instance exn_eq_dec : EqDecision exn.
Proof. solve_decision. Defined.

Inductive outcome (A : Type) :=
  | Return (a : A)
  | Raise (e : exn).
Arguments Return {A} a.
Arguments Raise {A} e.

Definition outcome_bind {A B} (o : outcome A) (f : A → outcome B) : outcome B :=
  match o with
  | Return a => f a
  | Raise e => Raise e
  end.

Fixpoint outcome_mapM {A B} (f : A → outcome B) (l : list A) : outcome (list B) :=
  match l with
  | [] => Return []
  | x :: t =>
      outcome_bind (f x) (λ y,
      outcome_bind (outcome_mapM f t) (λ ys, Return (y :: ys)))
  end.

(** ** Built-ins *)

(** [sorted(xs)] on integers. *)
Definition sorted (l : list Z) : list Z := merge_sort Z.le l.

(** [frozenset(xs)]. *)
Definition frozenset (l : list Z) : gset Z := list_to_set l.

(** [len(s)] of a set, as a Python integer. *)
Definition set_len (s : gset Z) : Z := Z.of_nat (size s).

(** [len(xs)] of a list or tuple. *)
Definition list_len {A} (l : list A) : Z := Z.of_nat (length l).

(** [itertools.combinations(xs, r)]: the [r]-element subsequences of
    [xs], in lexicographic order of positions. *)
Fixpoint combinations {A} (l : list A) (r : nat) : list (list A) :=
  match r with
  | O => [[]]
  | S r' =>
      match l with
      | [] => []
      | x :: t => map (cons x) (combinations t r') ++ combinations t r
      end
  end.

(** [range(n, 0, -1)]. *)
Definition range_down (n : nat) : list nat := rev (seq 1 n).

(** The faces visited by the double loop
    [for r in range(numnodes, 0, -1): for face in combinations(xs, r)]. *)
Definition faces_in_order (xs : list Z) : list (list Z) :=
  flat_map (combinations xs) (range_down (length xs)).

(** Position of [xs[i]] in a list of length [n]; negative indices
    count from the end, anything else is an [IndexError]. *)
Definition py_index (n : nat) (i : Z) : option nat :=
  if decide (0 ≤ i < Z.of_nat n) then Some (Z.to_nat i)
  else if decide (- Z.of_nat n ≤ i < 0) then Some (Z.to_nat (Z.of_nat n + i))
  else None.

(** The binomial coefficient, by Pascal's rule. *)
Fixpoint choose (n k : nat) : nat :=
  match k, n with
  | O, _ => 1%nat
  | S _, O => 0%nat
  | S k', S n' => (choose n' k' + choose n' k)%nat
  end.

(** ** The [Simplex] class *)

(** A [Simplex] object.  [_faces] is the frozenset of face objects; the
    class defines neither [__eq__] nor [__hash__], so a set of
    [Simplex] objects never merges two of them and is modelled by the
    list of the objects added to it. *)
#[warnings="-register-all"]
Inductive Simplex := mkSimplex {
  name : string;
  construct_tree : bool;
  nodes : gset Z;
  _faces : list Simplex;
  properties : gmap string pyval
}.

(** [Simplex.__init__], with the tree constructor left open so that
    [construct_simplex_tree] can call it with [construct_tree=False]. *)
Definition Simplex_init_with (tree : list Z → outcome (list Simplex))
    (elements : list Z) (name : option string) (construct_tree : bool)
    (attr : gmap string pyval) : outcome Simplex :=
  let name_ := match name with None => "" | Some n => n end in
  let nodes_ := frozenset elements in
  if negb (set_len nodes_ =? list_len elements) then Raise ValueError
  else
    outcome_bind (if construct_tree then tree elements else Return [])
      (λ faces, Return (mkSimplex name_ construct_tree nodes_ faces (attr ∪ ∅))).

(** [Simplex.construct_simplex_tree]. *)
Definition construct_simplex_tree (elements : list Z) : outcome (list Simplex) :=
  outcome_mapM
    (λ face, Simplex_init_with (λ _, Return []) (sorted face) None false ∅)
    (faces_in_order elements).

(** [Simplex(elements, name, construct_tree, **attr)]. *)
Definition Simplex_init := Simplex_init_with construct_simplex_tree.

(** [Simplex.__len__]. *)
Definition Simplex_len (s : Simplex) : Z := set_len (nodes s).

(** Arguments of the polymorphic methods, by the [isinstance] tests the
    code applies to them. *)
Inductive pyarg :=
  | PInt (z : Z)              (* Hashable, not Iterable *)
  | PSeq (l : list Z)         (* a tuple or a list *)
  | PFrozenset (s : gset Z)   (* a frozenset or a set *)
  | PSimplex (s : Simplex).

(** A frozenset is never equal to an integer. *)
Definition frozenset_eq_node (f : gset Z) (n : Z) : bool := false.

(** [Simplex.__contains__]. *)
Definition Simplex_contains (self : Simplex) (e : pyarg) : bool :=
  if set_len (nodes self) =? 0 then false
  else
    match e with
    | PSeq l =>
        if negb (list_len l =? 1) then false
        else bool_decide (frozenset l ⊆ nodes self)
    | PFrozenset s =>
        if negb (set_len s =? 1) then false
        else bool_decide (s ⊆ nodes self)
    | PSimplex s =>
        if negb (Simplex_len s =? 1) then false
        else bool_decide (nodes s ⊆ nodes self)
    | PInt z =>
        existsb (frozenset_eq_node {[z]}) (elements (nodes self))
    end.

(** ** The [SimplexView] class *)

(** The state of a [SimplexView]: [faces_dict[i]] maps the simplices of
    dimension [i] to their records.  The display name, which no method
    reads, is left out. *)
Record SimplexView := mkView {
  max_dim : Z;
  faces_dict : list (gmap (gset Z) (gmap string pyval))
}.

(** [SimplexView()]. *)
Definition empty_view : SimplexView := mkView (-1) [].

(** Methods run in a state and exception monad over the view.  A raised
    exception keeps the state reached when it was raised: Python does
    not roll back the mutations made before it. *)
Definition M (A : Type) : Type := SimplexView → outcome A * SimplexView.

Definition ret {A} (a : A) : M A := λ s, (Return a, s).
Definition raise {A} (e : exn) : M A := λ s, (Raise e, s).
Definition bind {A B} (m : M A) (f : A → M B) : M B :=
  λ s, match m s with
       | (Return a, s') => f a s'
       | (Raise e, s') => (Raise e, s')
       end.
Definition get_state : M SimplexView := λ s, (Return s, s).
Definition put_state (s' : SimplexView) : M unit := λ _, (Return tt, s').

Declare Scope view_scope.
Delimit Scope view_scope with view.
Notation "'let!' x ':=' m 'in' k" := (bind m (λ x, k))
  (at level 10, x name, m at level 100, k at level 200) : view_scope.
Notation "'let!' ' p ':=' m 'in' k" := (bind m (λ x, match x with p => k end))
  (at level 10, p pattern, m at level 100, k at level 200) : view_scope.
Notation "m >> k" := (bind m (λ _, k))
  (at level 100, k at level 200, right associativity) : view_scope.
Open Scope view_scope.

Fixpoint foldM {A B} (f : B → A → M B) (b : B) (l : list A) : M B :=
  match l with
  | [] => ret b
  | x :: t => let! b' := f b x in foldM f b' t
  end.

Fixpoint forM_ {A} (f : A → M unit) (l : list A) : M unit :=
  match l with
  | [] => ret tt
  | x :: t => f x >> forM_ f t
  end.

Definition lift_outcome {A} (o : outcome A) : M A :=
  match o with
  | Return a => ret a
  | Raise e => raise e
  end.

(** *** Reads and writes of [self.faces_dict] *)

(** [self.faces_dict[i]], with the position the index denotes. *)
Definition dict_at (i : Z) : M (nat * gmap (gset Z) (gmap string pyval)) :=
  let! s := get_state in
  match py_index (length (faces_dict s)) i with
  | Some n =>
      match faces_dict s !! n with
      | Some d => ret (n, d)
      | None => raise IndexError
      end
  | None => raise IndexError
  end.

(** [key in self.faces_dict[i]]. *)
Definition dict_contains (i : Z) (key : gset Z) : M bool :=
  let! '(_, d) := dict_at i in
  ret (bool_decide (is_Some (d !! key))).

(** [len(self.faces_dict[i])]. *)
Definition dict_len (i : Z) : M Z :=
  let! '(_, d) := dict_at i in
  ret (Z.of_nat (size d)).

(** [self.faces_dict[i][key]]. *)
Definition record_at (i : Z) (key : gset Z) : M (gmap string pyval) :=
  let! '(_, d) := dict_at i in
  match d !! key with
  | Some r => ret r
  | None => raise KeyError
  end.

(** [self.faces_dict[i][key] = r]. *)
Definition store_record (i : Z) (key : gset Z) (r : gmap string pyval) : M unit :=
  let! '(n, d) := dict_at i in
  let! s := get_state in
  put_state (mkView (max_dim s) (<[n := <[key := r]> d]> (faces_dict s))).

(** [del self.faces_dict[i][key]]. *)
Definition del_record (i : Z) (key : gset Z) : M unit :=
  let! '(n, d) := dict_at i in
  match d !! key with
  | Some _ =>
      let! s := get_state in
      put_state (mkView (max_dim s) (<[n := delete key d]> (faces_dict s)))
  | None => raise KeyError
  end.

(** [del self.faces_dict[i]]. *)
Definition del_dict (i : Z) : M unit :=
  let! '(n, _) := dict_at i in
  let! s := get_state in
  put_state (mkView (max_dim s) (delete n (faces_dict s))).

(** [self.max_dim = v]. *)
Definition set_max_dim (v : Z) : M unit :=
  let! s := get_state in
  put_state (mkView v (faces_dict s)).

(** [self.faces_dict[i][key][field]]. *)
Definition field_at (i : Z) (key : gset Z) (field : string) : M pyval :=
  let! r := record_at i key in
  match r !! field with
  | Some v => ret v
  | None => raise KeyError
  end.

(** [self.faces_dict[i][key][field] = v]. *)
Definition store_field (i : Z) (key : gset Z) (field : string) (v : pyval) : M unit :=
  let! r := record_at i key in
  store_record i key (<[field := v]> r).

(** [self.faces_dict[i][key].update(attr)]: the entries of [attr]
    overwrite those of the record, whatever their names. *)
Definition update_record (i : Z) (key : gset Z) (attr : gmap string pyval) : M unit :=
  let! r := record_at i key in
  store_record i key (attr ∪ r).

(** [self.faces_dict[i][key]["membership"]], which must be a set for
    the set methods to exist. *)
Definition membership_at (i : Z) (key : gset Z) : M (gset (gset Z)) :=
  let! v := field_at i key "membership" in
  match v with
  | VSet m => ret m
  | _ => raise AttributeError
  end.

(** [self.faces_dict[i][key]["membership"].add(x)]. *)
Definition membership_add (i : Z) (key : gset Z) (x : gset Z) : M unit :=
  let! m := membership_at i key in
  store_field i key "membership" (VSet ({[x]} ∪ m)).

(** [self.faces_dict[i][key]["membership"].remove(x)]: a [KeyError] when
    [x] is not a member. *)
Definition membership_remove (i : Z) (key : gset Z) (x : gset Z) : M unit :=
  let! m := membership_at i key in
  if bool_decide (x ∈ m) then store_field i key "membership" (VSet (m ∖ {[x]}))
  else raise KeyError.

(** [len(self.faces_dict[i][key]["membership"])]. *)
Definition membership_len (i : Z) (key : gset Z) : M Z :=
  let! v := field_at i key "membership" in
  match v with
  | VSet m => ret (Z.of_nat (size m))
  | _ => raise TypeError
  end.

(** The loop [for f in d: if f in maximal_faces: membership.remove(f)]
    over a copy [d] of the membership set; every [f] removed is a
    member, so [remove] cannot fail. *)
Definition discard_demoted (d maximal_faces : gset (gset Z)) : gset (gset Z) :=
  foldr (λ f m, if bool_decide (f ∈ maximal_faces) then m ∖ {[f]} else m)
        d (elements d).

(** The record of a simplex inserted as such, and of a face created
    on behalf of [simplex_]. *)
Definition new_maximal : gmap string pyval :=
  <["is_maximal" := VBool true]> (<["membership" := VSet ∅]> ∅).
Definition new_face (simplex_ : gset Z) : gmap string pyval :=
  <["is_maximal" := VBool false]> (<["membership" := VSet {[simplex_]}]> ∅).

(** [len(simplex)] of a method argument. *)
Definition arg_len (simplex : pyarg) : Z :=
  match simplex with
  | PInt _ => 1
  | PSeq l => list_len l
  | PFrozenset s => set_len s
  | PSimplex s => Simplex_len s
  end.

(** [SimplexView._update_faces_dict_length]. *)
Definition _update_faces_dict_length (simplex : gset Z) : M unit :=
  let! s := get_state in
  if list_len (faces_dict s) <? set_len simplex then
    let diff := set_len simplex - list_len (faces_dict s) in
    put_state (mkView (max_dim s) (faces_dict s ++ replicate (Z.to_nat diff) ∅))
  else ret tt.

(** [SimplexView._update_faces_dict_entry]; the set [maximal_faces],
    which the caller shares between the calls, is returned updated. *)
Definition _update_faces_dict_entry (face : list Z) (simplex_ : gset Z)
    (maximal_faces : gset (gset Z)) (attr : gmap string pyval)
    : M (gset (gset Z)) :=
  let k := list_len face in
  let key := frozenset (sorted face) in
  let! present := dict_contains (k - 1) key in
  if negb present then
    if list_len face =? set_len simplex_ then
      store_record (k - 1) key new_maximal >> ret maximal_faces
    else
      store_record (k - 1) key (new_face simplex_) >> ret maximal_faces
  else
    if negb (list_len face =? set_len simplex_) then
      let! flag := field_at (k - 1) key "is_maximal" in
      if truthy flag then
        store_field (k - 1) key "is_maximal" (VBool false) >>
        membership_add (k - 1) key simplex_ >>
        ret ({[key]} ∪ maximal_faces)
      else
        let! d := membership_at (k - 1) key in
        store_field (k - 1) key "membership" (VSet (discard_demoted d maximal_faces)) >>
        store_field (k - 1) key "is_maximal" (VBool false) >>
        membership_add (k - 1) key simplex_ >>
        ret maximal_faces
    else
      update_record (k - 1) simplex_ attr >> ret maximal_faces.

Section Iteration.

(** The order in which Python iterates over a frozenset of nodes and
    over a set of [Simplex] objects is not specified; the methods are
    defined, and the theorems proved, for any order. *)
Variable iter_nodes : gset Z → list Z.
Variable iter_faces : list Simplex → list Simplex.
Hypothesis iter_nodes_perm : ∀ s, iter_nodes s ≡ₚ elements s.
Hypothesis iter_faces_perm : ∀ l, iter_faces l ≡ₚ l.

(** The items produced by iterating over a method argument. *)
Definition arg_items (simplex : pyarg) : list Z :=
  match simplex with
  | PInt z => [z]
  | PSeq l => l
  | PFrozenset s => iter_nodes s
  | PSimplex s => iter_nodes (nodes s)
  end.

(** [SimplexView.__contains__]. *)
Definition SimplexView_contains (e : pyarg) : M bool :=
  let! s := get_state in
  if list_len (faces_dict s) =? 0 then ret false
  else
    match e with
    | PInt z => dict_contains 0 {[z]}
    | _ =>
        if max_dim s <? arg_len e - 1 then ret false
        else if arg_len e =? 0 then ret false
        else dict_contains (arg_len e - 1) (frozenset (arg_items e))
    end.

(** The [faces] property of a [Simplex]. *)
Definition Simplex_faces (self : Simplex) : outcome (list Simplex) :=
  if construct_tree self then Return (_faces self)
  else construct_simplex_tree (iter_nodes (nodes self)).

(** [SimplexView.__getitem__]; [None] is Python's [None], returned
    when the method falls off its end. *)
Definition SimplexView_getitem (simplex : pyarg) : M (option (gmap string pyval)) :=
  match simplex with
  | PSimplex s =>
      let! present := dict_contains (Simplex_len s - 1) (nodes s) in
      if present then
        let! r := record_at (Simplex_len s - 1) (nodes s) in ret (Some r)
      else ret None
  | PSeq _ | PFrozenset _ =>
      let simplex := frozenset (arg_items simplex) in
      let! present := dict_contains (set_len simplex - 1) simplex in
      if present then
        let! r := record_at (set_len simplex - 1) simplex in ret (Some r)
      else raise KeyError
  | PInt z =>
      let! present := SimplexView_contains (PFrozenset {[z]}) in
      if present then
        let! r := record_at 0 {[z]} in ret (Some r)
      else ret None
  end.

(** [SimplexView.insert_simplex]. *)
Definition insert_simplex (simplex : pyarg) (attr : gmap string pyval) : M unit :=
  let simplex := match simplex with PInt z => PSeq [z] | _ => simplex end in
  let! simplex_ :=
    match simplex with
    | PSimplex s => ret (nodes s)
    | _ =>
        let simplex_ := frozenset (sorted (arg_items simplex)) in
        if negb (set_len simplex_ =? arg_len simplex) then raise ValueError
        else ret simplex_
    end in
  _update_faces_dict_length simplex_ >>
  let! present := dict_contains (set_len simplex_ - 1) simplex_ in
  if present then update_record (set_len simplex_ - 1) simplex_ attr
  else
    let! s := get_state in
    (if max_dim s <? arg_len simplex - 1 then set_max_dim (arg_len simplex - 1)
     else ret tt) >>
    let numnodes := size simplex_ in
    foldM (λ maximal_faces face,
             _update_faces_dict_entry face simplex_ maximal_faces attr)
          ∅
          (flat_map (combinations (iter_nodes simplex_)) (range_down numnodes)) >>
    match simplex with
    | PSimplex s => update_record (set_len simplex_ - 1) simplex_ (properties s)
    | _ => update_record (set_len simplex_ - 1) simplex_ attr
    end.

(** The body of the loop [for s in faces] of
    [remove_maximal_simplex]. *)
Definition repair_face (simplex : pyarg) (simplex_ : gset Z) (s : Simplex) : M unit :=
  if Simplex_len s =? set_len simplex_ then ret tt
  else
    let s := nodes s in
    membership_remove (set_len s - 1) s simplex_ >>
    let! n := membership_len (set_len s - 1) s in
    if (n =? 0) && (set_len s =? arg_len simplex - 1) then
      store_field (set_len s - 1) s "is_maximal" (VBool true)
    else ret tt.

(** [SimplexView.remove_maximal_simplex]. *)
Definition remove_maximal_simplex (simplex : pyarg) : M unit :=
  let! simplex_ :=
    match simplex with
    | PInt _ => raise UnboundLocalError
    | PSimplex s => ret (nodes s)
    | _ => ret (frozenset (sorted (arg_items simplex)))
    end in
  let! present := dict_contains (set_len simplex_ - 1) simplex_ in
  if present then
    let! r := SimplexView_getitem simplex in
    let! flag :=
      match r with
      | None => raise TypeError
      | Some r =>
          match r !! "is_maximal" with
          | Some v => ret v
          | None => raise KeyError
          end
      end in
    if truthy flag then
      del_record (set_len simplex_ - 1) simplex_ >>
      let! whole := lift_outcome (Simplex_init (iter_nodes simplex_) None true ∅) in
      let! faces := lift_outcome (Simplex_faces whole) in
      forM_ (repair_face simplex simplex_) (iter_faces faces) >>
      let! n := dict_len (set_len simplex_ - 1) in
      let! s := get_state in
      if (n =? 0) && (set_len simplex_ - 1 =? max_dim s) then
        del_dict (set_len simplex_ - 1) >>
        let! s := get_state in
        set_max_dim (list_len (faces_dict s) - 1)
      else ret tt
    else raise ValueError
  else raise KeyError.

(** The [boundary] property of a [Simplex]. *)
Definition Simplex_boundary (self : Simplex) : outcome (list Simplex) :=
  if construct_tree self then
    Return (filter (λ i, Simplex_len i = Simplex_len self - 1) (_faces self))
  else
    outcome_bind (construct_simplex_tree (iter_nodes (nodes self)))
      (λ faces,
         Return (filter (λ i, Simplex_len i = Simplex_len self - 1) faces)).

(** [SimplexView.add_simplices_from]; [None] stands for an argument
    that is not iterable. *)
Definition add_simplices_from (simplices : option (list pyarg)) : M unit :=
  match simplices with
  | Some l => forM_ (λ s, insert_simplex s ∅) l
  | None => raise ValueError
  end.

(** The views a client can reach from [SimplexView()] by calls of
    [insert_simplex] and [remove_maximal_simplex], whether they
    return or raise. *)
Inductive reachable : SimplexView → Prop :=
  | reachable_empty : reachable empty_view
  | reachable_insert s simplex attr :
      reachable s → reachable (snd (insert_simplex simplex attr s))
  | reachable_remove s simplex :
      reachable s → reachable (snd (remove_maximal_simplex simplex s)).

End Iteration.

(** The order of CPython on small non-negative integers, ascending, and
    the faces in the order of their creation, for running the methods
    on examples. *)
Definition ascending (s : gset Z) : list Z := sorted (elements s).
Definition as_created (l : list Simplex) : list Simplex := l.

Definition insert := insert_simplex ascending.
Definition remove := remove_maximal_simplex ascending as_created.
Definition getitem := SimplexView_getitem ascending.

(** Running a sequence of calls from a state. *)
Definition exec {A} (m : M A) (s : SimplexView) : SimplexView := snd (m s).
Definition result {A} (m : M A) (s : SimplexView) : outcome A := fst (m s).

(** ** Object identity *)

(** A reference to a [Simplex] object: the object and its identity
    [id(obj)].  [Simplex] inherits [__eq__] and [__hash__] from
    [object], which compare and hash the identity. *)
Record SimplexRef := mkRef {
  ref_id : nat;
  ref_obj : Simplex
}.

(** [Simplex(...)] evaluated when [next] is the first free identity:
    the new object takes it, the face objects take the following ones. *)
Definition Simplex_new (next : nat) (elements : list Z) (name : option string)
    (construct_tree : bool) (attr : gmap string pyval)
    : outcome (SimplexRef * nat) :=
  outcome_bind (Simplex_init elements name construct_tree attr)
    (λ obj, Return (mkRef next obj, (next + 1 + length (_faces obj))%nat)).

(** [a == b], that is [object.__eq__]. *)
Definition Simplex_eq (a b : SimplexRef) : bool :=
  bool_decide (ref_id a = ref_id b).

(** [hash(a)], that is [object.__hash__]. *)
Definition Simplex_hash (a : SimplexRef) : nat := ref_id a.

(** ** Vocabulary of the specification *)

(** The record stored for [K] in the dictionary at position [n]. *)
Definition rec_at (s : SimplexView) (n : nat) (K : gset Z)
    : option (gmap string pyval) :=
  faces_dict s !! n ≫= (.!! K).

(** The record stored for [K] at its own dimension. *)
Definition stored (s : SimplexView) (K : gset Z) : option (gmap string pyval) :=
  match size K with
  | O => None
  | S n => rec_at s n K
  end.

(** The flag and the membership set of a record. *)
Definition is_maximal (r : gmap string pyval) : option bool :=
  match r !! "is_maximal" with
  | Some v => Some (truthy v)
  | None => None
  end.
Definition membership (r : gmap string pyval) : option (gset (gset Z)) :=
  match r !! "membership" with
  | Some (VSet m) => Some m
  | _ => None
  end.

(** Invariant I2 on one record. *)
Definition I2_record (r : gmap string pyval) : Prop :=
  ∃ b m, is_maximal r = Some b ∧ membership r = Some m ∧ (b = true ↔ m = ∅).

(** [F] is a face of [E]: a non-empty proper subset. *)
Definition is_face (F E : gset Z) : Prop := F ≠ ∅ ∧ F ⊂ E.

(** The number of simplices stored at each dimension ([shape]). *)
Definition shape (s : SimplexView) : list nat := size <$> faces_dict s.

(** Each slot of [faces_dict] holds simplices of its dimension only,
    and [max_dim] is the last index. *)
Definition dims_ok (s : SimplexView) : Prop :=
  max_dim s = list_len (faces_dict s) - 1 ∧
  ∀ n d K, faces_dict s !! n = Some d → is_Some (d !! K) → size K = S n.

(** Keyword attributes that leave the bookkeeping entries alone. *)
Definition unreserved (attr : gmap string pyval) : Prop :=
  attr !! "is_maximal" = None ∧ attr !! "membership" = None.

(** An argument of [insert_simplex] whose own attributes, if it is a
    [Simplex], are unreserved. *)
Definition plain_arg (simplex : pyarg) : Prop :=
  match simplex with
  | PSimplex s => unreserved (properties s)
  | _ => True
  end.

(** The views built by [insert_simplex] alone, with unreserved
    attributes. *)
Inductive built (iter_nodes : gset Z → list Z) : SimplexView → Prop :=
  | built_empty : built iter_nodes empty_view
  | built_insert s simplex attr :
      built iter_nodes s → plain_arg simplex → unreserved attr →
      built iter_nodes (snd (insert_simplex iter_nodes simplex attr s)).

(** ** Attribute access on a [Simplex] *)

(** [Simplex.__getitem__]. *)
Definition Simplex_getitem (self : Simplex) (item : string) : outcome pyval :=
  match properties self !! item with
  | None => Raise KeyError
  | Some v => Return v
  end.

(** [Simplex.__setitem__]: the object after [self.properties[key] = item]. *)
Definition Simplex_setitem (self : Simplex) (key : string) (item : pyval) : Simplex :=
  mkSimplex (name self) (construct_tree self) (nodes self) (_faces self)
            (<[key := item]> (properties self)).

(** ** Counting and listing the simplices of a view *)

(** The [shape] property; [None] is returned, after a message is
    printed, when the view is empty. *)
Definition SimplexView_shape (self : SimplexView) : option (list Z) :=
  if list_len (faces_dict self) =? 0 then None
  else Some (map (λ d, Z.of_nat (size d)) (faces_dict self)).

(** [SimplexView.__len__]: [np.sum(self.shape)]. *)
Definition SimplexView_len (self : SimplexView) : Z :=
  if list_len (faces_dict self) =? 0 then 0
  else
    match SimplexView_shape self with
    | Some sh => foldr Z.add 0 sh
    | None => 0
    end.

(** [SimplexView.__iter__]: the keys of the dictionaries, dimension by
    dimension; [keys] gives the order of the keys of one dictionary. *)
Definition SimplexView_iter
    (keys : gmap (gset Z) (gmap string pyval) → list (gset Z))
    (self : SimplexView) : list (gset Z) :=
  foldl (λ all_simplices d, (all_simplices ++ keys d)%list) [] (faces_dict self).

(** ** Reasoning about methods *)

(** [m] keeps the invariant [I], whether it returns or raises. *)
Definition preserves {A} (I : SimplexView → Prop) (m : M A) : Prop :=
  ∀ s, I s → I (snd (m s)).

(** [m] leaves the state alone. *)
Definition readonly {A} (m : M A) : Prop := ∀ s, snd (m s) = s.

(** Every key stored in a slot has the size of that slot. *)
Definition keys_ok (s : SimplexView) : Prop :=
  ∀ n d K, faces_dict s !! n = Some d → is_Some (d !! K) → size K = S n.

(** The stored keys only grow from [s] to [s']. *)
Definition keys_grow (s s' : SimplexView) : Prop :=
  (length (faces_dict s) ≤ length (faces_dict s'))%nat ∧
  ∀ n K, is_Some (rec_at s n K) → is_Some (rec_at s' n K).

(** The dictionary that [self.faces_dict[i]] denotes, with its position. *)
Definition slot (s : SimplexView) (i : Z)
    : option (nat * gmap (gset Z) (gmap string pyval)) :=
  match py_index (length (faces_dict s)) i with
  | Some n =>
      match faces_dict s !! n with
      | Some d => Some (n, d)
      | None => None
      end
  | None => None
  end.

(** The view with the dictionary at position [n] replaced. *)
Definition set_slot (s : SimplexView) (n : nat)
    (d : gmap (gset Z) (gmap string pyval)) : SimplexView :=
  mkView (max_dim s) (<[n := d]> (faces_dict s)).

(** ** Arguments, keys and further invariants *)

(** The key under which a method argument is stored: the frozenset of
    its items. *)
Definition key_of (simplex : pyarg) : gset Z :=
  match simplex with
  | PInt z => {[z]}
  | PSeq l => list_to_set l
  | PFrozenset s => s
  | PSimplex x => nodes x
  end.

(** The argument lists no item twice. *)
Definition distinct (simplex : pyarg) : Prop :=
  match simplex with
  | PSeq l => NoDup l
  | _ => True
  end.

#[global] Instance distinct_dec simplex : Decision (distinct simplex).
Proof. destruct simplex; apply _. Defined.

(** The argument is a collection of nodes, not a bare node. *)
Definition is_collection (simplex : pyarg) : Prop :=
  match simplex with
  | PInt _ => False
  | _ => True
  end.

(** The view after [insert_simplex((1, 2))] on a fresh view, written
    out: the two nodes at index 0, the edge at index 1. *)
Definition edge_view : SimplexView :=
  mkView 1 [ {[ {[1]} := new_face {[1; 2]}; {[2]} := new_face {[1; 2]} ]};
             {[ {[1; 2]} := new_maximal ]} ].

(** Invariant I2 on every record of a view. *)
Definition I2_view (s : SimplexView) : Prop :=
  ∀ n K r, rec_at s n K = Some r → I2_record r.

(** The two views store the same keys at the same indices. *)
Definition same_keys (s s' : SimplexView) : Prop :=
  ∀ n K, is_Some (rec_at s' n K) ↔ is_Some (rec_at s n K).

(** * Properties of the embedding *)

(** ** Defects exhibited on concrete runs *)

(** C1.  Invariant I2 does not survive a removal: after inserting the
    triangle (1,2,3) and removing it again, a reachable view stores the
    node 1 with [is_maximal] false and an empty membership set.
    [remove_maximal_simplex] empties the membership of the faces of
    codimension two or more without registering the faces that became
    maximal. *)
Lemma I2_broken_after_remove :
  let s := exec (remove (PSeq [1; 2; 3]))
             (exec (insert (PSeq [1; 2; 3]) ∅) empty_view) in
  reachable ascending as_created s ∧
  ∃ r, stored s {[1]} = Some r ∧
       is_maximal r = Some false ∧ membership r = Some ∅ ∧
       ¬ I2_record r.
Proof.
  split.
  - apply reachable_remove, reachable_insert, reachable_empty.
  - eexists. split; [vm_compute; reflexivity|].
    split; [vm_compute; reflexivity|].
    split; [vm_compute; reflexivity|].
    intros (b & m & Hb & Hm & Hiff).
    vm_compute in Hb. vm_compute in Hm.
    injection Hb as <-. injection Hm as <-.
    destruct Hiff as [_ Hiff]. discriminate Hiff. reflexivity.
Qed.

(** C9.  A failed call can leave a changed store.  After inserting the
    triangle (1,2,3) and removing it, the edge (1,2) is stored and
    maximal; removing it raises [KeyError] in the cascade over its
    faces, after the edge itself has been deleted: the state after the
    failed call differs from the state before it.  The failure comes
    from the defect shown in [I2_broken_after_remove]. *)
Lemma remove_fails_half_done :
  let s := exec (remove (PSeq [1; 2; 3]))
             (exec (insert (PSeq [1; 2; 3]) ∅) empty_view) in
  reachable ascending as_created s ∧
  (∃ r, stored s {[1; 2]} = Some r ∧ is_maximal r = Some true) ∧
  result (remove (PSeq [1; 2])) s = Raise KeyError ∧
  stored (exec (remove (PSeq [1; 2])) s) {[1; 2]} = None ∧
  exec (remove (PSeq [1; 2])) s ≠ s.
Proof.
  split; [apply reachable_remove, reachable_insert, reachable_empty|].
  split; [eexists; split; vm_compute; reflexivity|].
  split; [vm_compute; reflexivity|].
  split; [vm_compute; reflexivity|].
  intros Heq.
  assert (H : stored (exec (remove (PSeq [1; 2]))
                (exec (remove (PSeq [1; 2; 3]))
                   (exec (insert (PSeq [1; 2; 3]) ∅) empty_view))) {[1; 2]}
              = None) by (vm_compute; reflexivity).
  rewrite Heq in H. vm_compute in H. discriminate H.
Qed.

(** C8.  A lookup of an absent key does not always raise: for a
    [Simplex] object and for a bare node that the view does not hold,
    [__getitem__] falls off its end and returns [None]; only the
    branch for iterables raises [KeyError]. *)
Lemma getitem_absent_returns_None :
  let s := exec (insert (PSeq [1; 2]) ∅) empty_view in
  ∃ absent,
    Simplex_init [3; 4] None true ∅ = Return absent ∧
    stored s {[3; 4]} = None ∧ stored s {[7]} = None ∧
    result (getitem (PSimplex absent)) s = Return None ∧
    result (getitem (PInt 7)) s = Return None ∧
    result (getitem (PSeq [3; 4])) s = Raise KeyError.
Proof.
  eexists. split; [vm_compute; reflexivity|].
  repeat split; vm_compute; reflexivity.
Qed.

(** ** The [Simplex] class *)

Lemma set_len_0 (s : gset Z) : set_len s = 0 ↔ s = ∅.
Proof.
  unfold set_len. split.
  - intros H. apply leibniz_equiv, size_empty_inv. lia.
  - intros ->. by rewrite size_empty.
Qed.

Lemma set_len_1 (s : gset Z) : set_len s = 1 ↔ ∃ x, s = {[x]}.
Proof.
  unfold set_len. split.
  - intros H. destruct (size_1_elem_of s) as [x Hx]; [lia|].
    exists x. by apply leibniz_equiv.
  - intros [x ->]. by rewrite size_singleton.
Qed.

Lemma list_len_1 {A} (l : list A) : list_len l = 1 ↔ ∃ x, l = [x].
Proof.
  unfold list_len. split.
  - destruct l as [|x [|y l]]; simpl; try lia. eauto.
  - intros [x ->]. reflexivity.
Qed.

Lemma Simplex_init_with_nodes tree elements name ct attr s :
  Simplex_init_with tree elements name ct attr = Return s →
  nodes s = frozenset elements ∧
  set_len (frozenset elements) = list_len elements.
Proof.
  unfold Simplex_init_with.
  destruct (set_len (frozenset elements) =? list_len elements) eqn:Hlen;
    simpl; [|discriminate].
  apply Z.eqb_eq in Hlen.
  destruct (if ct then tree elements else Return []); simpl; [|discriminate].
  intros [= <-]. done.
Qed.

Lemma Simplex_init_nodes elements name ct attr s :
  Simplex_init elements name ct attr = Return s →
  nodes s = frozenset elements.
Proof. intros H. by apply Simplex_init_with_nodes in H as [? _]. Qed.

(** C7, as the claim states it, fails: two [Simplex] objects built
    from the same nodes are different objects, compare unequal and
    hash differently. *)
Lemma same_key_objects_unequal :
  ∃ a b n1 n2,
    Simplex_new 0 [1; 2] None true ∅ = Return (a, n1) ∧
    Simplex_new n1 [2; 1] None true ∅ = Return (b, n2) ∧
    nodes (ref_obj a) = nodes (ref_obj b) ∧
    Simplex_eq a b = false ∧
    Simplex_hash a ≠ Simplex_hash b.
Proof.
  do 4 eexists.
  split; [vm_compute; reflexivity|].
  split; [vm_compute; reflexivity|].
  split; [vm_compute; reflexivity|].
  split; [vm_compute; reflexivity|].
  vm_compute. discriminate.
Qed.

(** C7, amended.  Two [Simplex] objects built one after the other from
    collections with the same set of nodes have equal canonical keys
    [nodes], whatever their names, tree flags and attributes; equality
    and hashing of the objects themselves are by identity: the two
    objects compare unequal and hash differently, and each is equal to
    itself. *)
Theorem Simplex_key_equal_objects_by_identity
    next l1 l2 name1 name2 ct1 ct2 attr1 attr2 a b next1 next2 :
  frozenset l1 = frozenset l2 →
  Simplex_new next l1 name1 ct1 attr1 = Return (a, next1) →
  Simplex_new next1 l2 name2 ct2 attr2 = Return (b, next2) →
  nodes (ref_obj a) = nodes (ref_obj b) ∧
  Simplex_eq a b = false ∧ Simplex_hash a ≠ Simplex_hash b ∧
  Simplex_eq a a = true ∧ Simplex_eq b b = true.
Proof.
  unfold Simplex_new. intros Hkey Ha Hb.
  destruct (Simplex_init l1 name1 ct1 attr1) as [oa|] eqn:Ea; [|discriminate].
  destruct (Simplex_init l2 name2 ct2 attr2) as [ob|] eqn:Eb; [|discriminate].
  simpl in Ha, Hb. injection Ha as <- <-. injection Hb as <- <-.
  apply Simplex_init_nodes in Ea, Eb. simpl.
  unfold Simplex_eq, Simplex_hash. simpl.
  split; [congruence|].
  split; [apply bool_decide_eq_false; lia|].
  split; [lia|].
  split; by apply bool_decide_eq_true.
Qed.

Lemma Simplex_key_equal_objects_by_identity_witness :
  ∃ a b n1 n2,
    Simplex_new 0 [1; 2] None true ∅ = Return (a, n1) ∧
    Simplex_new n1 [2; 1] (Some "e") false (<["weight" := VInt 1]> ∅)
      = Return (b, n2) ∧
    nodes (ref_obj a) = nodes (ref_obj b) ∧
    Simplex_eq a b = false ∧ Simplex_hash a ≠ Simplex_hash b ∧
    Simplex_eq a a = true ∧ Simplex_eq b b = true.
Proof.
  do 4 eexists.
  split; [vm_compute; reflexivity|].
  split; [vm_compute; reflexivity|].
  eapply (Simplex_key_equal_objects_by_identity 0 [1; 2] [2; 1]
            None (Some "e") true false ∅ (<["weight" := VInt 1]> ∅)).
  - vm_compute; reflexivity.
  - reflexivity.
  - reflexivity.
Defined.

(** C5, as the claim states it, fails: the pair (1,2) is a non-empty
    sub-collection of the triangle (1,2,3), and the membership test
    answers [False], because of the guard [len(e) != 1]. *)
Lemma contains_rejects_pair :
  ∃ s, Simplex_init [1; 2; 3] None true ∅ = Return s ∧
       frozenset [1; 2] ⊆ nodes s ∧
       Simplex_contains s (PSeq [1; 2]) = false.
Proof.
  eexists. split; [vm_compute; reflexivity|].
  split; [|vm_compute; reflexivity].
  refine (bool_decide_unpack _ _). vm_compute. exact I.
Qed.

(** C5, amended.  For a [Simplex] built from a non-empty collection,
    the membership test applied to a collection (a tuple or list, a
    frozenset, another [Simplex]) answers [True] exactly when the
    collection has one item and that item is a node of the simplex: it
    answers [False] for every collection of another length, also for
    sub-collections of two or more nodes, and for a one-item collection
    outside the simplex. *)
Theorem Simplex_contains_collection elements name ct attr s :
  elements ≠ [] →
  Simplex_init elements name ct attr = Return s →
  (∀ l, Simplex_contains s (PSeq l) = true ↔ ∃ x, l = [x] ∧ x ∈ elements) ∧
  (∀ t, Simplex_contains s (PFrozenset t) = true ↔
        ∃ x, t = {[x]} ∧ x ∈ elements) ∧
  (∀ t, Simplex_contains s (PSimplex t) = true ↔
        ∃ x, nodes t = {[x]} ∧ x ∈ elements).
Proof.
  intros Hne Hnodes. apply Simplex_init_nodes in Hnodes.
  assert (Hlen : (set_len (nodes s) =? 0) = false).
  { apply Z.eqb_neq. rewrite set_len_0, Hnodes. unfold frozenset.
    destruct elements as [|x l]; [done|]. set_solver. }
  assert (Hsub : ∀ t : gset Z, size t = 1%nat →
            (t ⊆ nodes s ↔ ∃ x, t = {[x]} ∧ x ∈ elements)).
  { intros t Ht. destruct (proj1 (set_len_1 t)) as [x ->];
      [unfold set_len; lia|].
    rewrite Hnodes. unfold frozenset. split.
    - intros Hx. exists x. split; [done|]. set_solver.
    - intros (y & Hy & Hin). apply (inj singleton) in Hy as <-. set_solver. }
  unfold Simplex_contains. rewrite Hlen.
  split; [|split].
  - intros l. destruct (list_len l =? 1) eqn:Hl; simpl.
    + apply Z.eqb_eq, list_len_1 in Hl as [x ->].
      assert (Hx : frozenset [x] = {[x]}) by (unfold frozenset; set_solver).
      rewrite bool_decide_eq_true, Hx, Hsub by apply size_singleton.
      split.
      * intros (y & Hy & Hin). apply (inj singleton) in Hy as <-. eauto.
      * intros (y & [= ->] & Hin). eauto.
    + split; [done|]. intros (x & -> & _). discriminate Hl.
  - intros t. destruct (set_len t =? 1) eqn:Hl; simpl.
    + apply Z.eqb_eq in Hl. rewrite bool_decide_eq_true.
      apply Hsub. unfold set_len in Hl. lia.
    + split; [done|]. intros (x & -> & _).
      apply Z.eqb_neq in Hl. destruct Hl. apply set_len_1. eauto.
  - intros t. unfold Simplex_len. destruct (set_len (nodes t) =? 1) eqn:Hl; simpl.
    + apply Z.eqb_eq in Hl. rewrite bool_decide_eq_true.
      apply Hsub. unfold set_len in Hl. lia.
    + split; [done|]. intros (x & Hx & _).
      apply Z.eqb_neq in Hl. destruct Hl. apply set_len_1. eauto.
Qed.

Lemma Simplex_contains_collection_witness :
  ∃ s, Simplex_init [1; 2; 3] None true ∅ = Return s ∧
    (∀ l, Simplex_contains s (PSeq l) = true ↔ ∃ x, l = [x] ∧ x ∈ [1; 2; 3]) ∧
    (∀ t, Simplex_contains s (PFrozenset t) = true ↔
          ∃ x, t = {[x]} ∧ x ∈ [1; 2; 3]) ∧
    (∀ t, Simplex_contains s (PSimplex t) = true ↔
          ∃ x, nodes t = {[x]} ∧ x ∈ [1; 2; 3]).
Proof.
  eexists. split; [vm_compute; reflexivity|].
  apply (Simplex_contains_collection [1; 2; 3] None true ∅).
  - discriminate.
  - vm_compute; reflexivity.
Defined.

(** ** Combinations and the faces of a simplex *)

Section combinations.
Context {A : Type}.
Implicit Types l c : list A.

Lemma elem_of_combinations l r c :
  c ∈ combinations l r ↔ c `sublist_of` l ∧ length c = r.
Proof.
  revert r c. induction l as [|x t IH]; intros [|r] c; simpl.
  - rewrite list_elem_of_singleton. split.
    + intros ->. split; [constructor|done].
    + intros [_ Hc]. by destruct c.
  - split; [by intros ?%elem_of_nil|].
    intros [Hc Hlen]. apply sublist_nil_r in Hc as ->. discriminate.
  - rewrite list_elem_of_singleton. split.
    + intros ->. split; [apply sublist_nil_l|done].
    + intros [_ Hc]. by destruct c.
  - rewrite elem_of_app, list_elem_of_In, in_map_iff, sublist_cons_r.
    setoid_rewrite <- list_elem_of_In. setoid_rewrite IH. split.
    + intros [(c' & <- & Hc' & Hlen)|[Hc Hlen]].
      * split; [right; eauto|simpl; lia].
      * split; [by left|done].
    + intros [[Hc|(c' & -> & Hc')] Hlen].
      * by right.
      * left. exists c'. simpl in Hlen. split; [done|]. split; [done|lia].
Qed.

Lemma length_combinations l r :
  length (combinations l r) = choose (length l) r.
Proof.
  revert r. induction l as [|x t IH]; intros [|r]; simpl; try done.
  by rewrite length_app, length_map, !IH.
Qed.

Lemma NoDup_combinations l r : NoDup l → NoDup (combinations l r).
Proof.
  revert r. induction l as [|x t IH]; intros [|r] Hl; simpl.
  - apply NoDup_singleton.
  - constructor.
  - apply NoDup_singleton.
  - apply NoDup_cons in Hl as [Hx Ht]. apply NoDup_app. split; [|split].
    + apply (NoDup_fmap_2 (cons x)), IH, Ht.
    + intros c Hc Hc'. apply list_elem_of_In, in_map_iff in Hc as (c' & <- & _).
      apply elem_of_combinations in Hc' as [Hsub _].
      apply Hx. eapply elem_of_sublist; [|exact Hsub]. left.
    + by apply IH.
Qed.

End combinations.

(** The key [frozenset(sorted(face))] of a face is the set of its items. *)
Lemma frozenset_sorted (c : list Z) : frozenset (sorted c) = list_to_set c.
Proof.
  unfold frozenset, sorted. apply set_eq. intros x.
  rewrite !elem_of_list_to_set. by rewrite merge_sort_Permutation.
Qed.

(** [len(frozenset(xs)) == len(xs)] holds exactly when [xs] has no
    repeated item. *)
Lemma size_list_to_set_le (l : list Z) :
  (size (list_to_set l : gset Z) ≤ length l)%nat.
Proof.
  induction l as [|x l IH].
  { rewrite list_to_set_nil, size_empty. simpl. lia. }
  rewrite list_to_set_cons, size_union_alt, size_singleton. simpl.
  assert (size ((list_to_set l : gset Z) ∖ {[x]}) ≤ size (list_to_set l : gset Z))%nat.
  { apply subseteq_size. set_solver. }
  lia.
Qed.

Lemma set_len_list_len_NoDup (l : list Z) :
  set_len (frozenset l) = list_len l ↔ NoDup l.
Proof.
  unfold set_len, list_len, frozenset. split.
  - induction l as [|x l IH]; [constructor|].
    rewrite list_to_set_cons. simpl.
    intros Hlen. pose proof (size_list_to_set_le l) as Hle.
    destruct (decide (x ∈ l)) as [Hin|Hin].
    + exfalso.
      assert (({[x]} ∪ list_to_set l : gset Z) = list_to_set l) as Heq
        by set_solver.
      rewrite Heq in Hlen. lia.
    + constructor; [done|]. apply IH.
      rewrite size_union in Hlen by set_solver.
      rewrite size_singleton in Hlen. lia.
  - intros Hl. by rewrite size_list_to_set.
Qed.

(** A sublist of a duplicate-free list is determined by its items. *)
Lemma sublist_items_inj (l c1 c2 : list Z) :
  NoDup l → c1 `sublist_of` l → c2 `sublist_of` l →
  (list_to_set c1 : gset Z) = list_to_set c2 → c1 = c2.
Proof.
  intros Hl H1 H2 Heq.
  assert (Hiff : ∀ x, x ∈ c1 ↔ x ∈ c2).
  { intros x. by rewrite <- !(elem_of_list_to_set (C:=gset Z)), Heq. }
  clear Heq. revert c1 c2 H1 H2 Hiff.
  induction l as [|x t IH]; intros c1 c2 H1 H2 Hiff.
  - apply sublist_nil_r in H1, H2. by subst.
  - apply NoDup_cons in Hl as [Hx Ht].
    apply sublist_cons_r in H1 as [H1|(c1' & -> & H1)];
      apply sublist_cons_r in H2 as [H2|(c2' & -> & H2)].
    + by apply IH.
    + exfalso. apply Hx. eapply elem_of_sublist; [|exact H1].
      apply Hiff. left.
    + exfalso. apply Hx. eapply elem_of_sublist; [|exact H2].
      apply Hiff. left.
    + f_equal. apply IH; [done..|]. intros y. split; intros Hy.
      * assert (y ∈ x :: c2') as Hy' by (apply Hiff; by right).
        apply elem_of_cons in Hy' as [->|?]; [|done].
        exfalso. apply Hx. eapply elem_of_sublist; [|exact H1]. done.
      * assert (y ∈ x :: c1') as Hy' by (apply Hiff; by right).
        apply elem_of_cons in Hy' as [->|?]; [|done].
        exfalso. apply Hx. eapply elem_of_sublist; [|exact H2]. done.
Qed.

(** Every subset of the items of a list is the set of a sublist. *)
Lemma subset_sublist (l : list Z) (T : gset Z) :
  T ⊆ list_to_set l → ∃ c, c `sublist_of` l ∧ list_to_set c = T.
Proof.
  intros HT. exists (filter (λ x, x ∈ T) l). split; [apply sublist_filter|].
  apply set_eq. intros x.
  rewrite elem_of_list_to_set, list_elem_of_filter.
  split; [by intros [? _]|]. intros Hx. split; [done|].
  apply HT in Hx. by apply elem_of_list_to_set in Hx.
Qed.

Lemma elem_of_range_down n r : r ∈ range_down n ↔ (1 ≤ r ≤ n)%nat.
Proof.
  unfold range_down. rewrite list_elem_of_In, <- in_rev, in_seq. lia.
Qed.

Lemma NoDup_range_down n : NoDup (range_down n).
Proof.
  unfold range_down. rewrite <- (Permutation_rev (seq 1 n)). apply NoDup_seq.
Qed.

(** The faces visited are the non-empty sublists, each once. *)
Lemma elem_of_faces_in_order (l c : list Z) :
  c ∈ faces_in_order l ↔ c `sublist_of` l ∧ c ≠ [].
Proof.
  unfold faces_in_order. rewrite list_elem_of_In, in_flat_map. split.
  - intros (r & Hr & Hc). apply list_elem_of_In in Hr, Hc.
    apply elem_of_range_down in Hr. apply elem_of_combinations in Hc as [? Hlen].
    split; [done|]. intros ->. simpl in Hlen. lia.
  - intros [Hsub Hne]. exists (length c). split; apply list_elem_of_In.
    + apply elem_of_range_down. split.
      * destruct c; [done|simpl; lia].
      * by apply sublist_length.
    + by apply elem_of_combinations.
Qed.

Lemma filter_all {A} (P : A → Prop) `{∀ x, Decision (P x)} (l : list A) :
  (∀ x, x ∈ l → P x) → filter P l = l.
Proof.
  induction l as [|x l IH]; intros Hl; [done|].
  rewrite filter_cons_True by (apply Hl; left).
  f_equal. apply IH. intros y Hy. apply Hl. by right.
Qed.

Lemma filter_none {A} (P : A → Prop) `{∀ x, Decision (P x)} (l : list A) :
  (∀ x, x ∈ l → ¬ P x) → filter P l = [].
Proof.
  induction l as [|x l IH]; intros Hl; [done|].
  rewrite filter_cons_False by (apply Hl; left).
  apply IH. intros y Hy. apply Hl. by right.
Qed.

Lemma filter_ext_in {A} (P Q : A → Prop)
    `{∀ x, Decision (P x)} `{∀ x, Decision (Q x)} (l : list A) :
  (∀ x, x ∈ l → P x ↔ Q x) → filter P l = filter Q l.
Proof.
  induction l as [|x l IH]; intros Hl; [done|].
  assert (filter P l = filter Q l) as IH'.
  { apply IH. intros y Hy. apply Hl. by right. }
  rewrite !filter_cons, IH'.
  destruct (decide (P x)) as [HP|HP], (decide (Q x)) as [HQ|HQ]; try done.
  - destruct HQ. apply Hl; [left|done].
  - destruct HP. apply Hl; [left|done].
Qed.

Lemma filter_map_length {A B} (g : A → B) (P : B → Prop)
    `{∀ y, Decision (P y)} (l : list A) :
  length (filter P (map g l)) = length (filter (λ x, P (g x)) l).
Proof.
  induction l as [|x l IH]; [done|]. simpl map.
  rewrite !filter_cons. destruct (decide (P (g x))); simpl; by rewrite IH.
Qed.

Lemma NoDup_faces_in_order (l : list Z) : NoDup l → NoDup (faces_in_order l).
Proof.
  intros Hl. unfold faces_in_order.
  generalize (NoDup_range_down (length l)).
  generalize (range_down (length l)) as L.
  induction L as [|r L IH]; intros HL; simpl; [constructor|].
  apply NoDup_cons in HL as [Hr HL]. apply NoDup_app. split; [|split].
  - by apply NoDup_combinations.
  - intros c Hc Hc'. apply list_elem_of_In, in_flat_map in Hc' as (r' & Hr' & Hc').
    apply list_elem_of_In in Hr', Hc'.
    apply elem_of_combinations in Hc as [_ <-], Hc' as [_ <-]. done.
  - by apply IH.
Qed.

(** Among the faces visited, those with [r] items are the
    [r]-combinations. *)
Lemma count_faces_of_length (l : list Z) (r : nat) :
  (1 ≤ r ≤ length l)%nat →
  length (filter (λ c, length c = r) (faces_in_order l)) = choose (length l) r.
Proof.
  intros Hr%elem_of_range_down. unfold faces_in_order.
  pose proof (NoDup_range_down (length l)) as HL.
  enough (Hgen : ∀ L, NoDup L →
            length (filter (λ c, length c = r) (flat_map (combinations l) L))
            = if decide (r ∈ L) then choose (length l) r else 0%nat).
  { rewrite Hgen by done. by rewrite decide_True. }
  clear. induction L as [|r' L IH]; intros HL.
  { reflexivity. }
  apply NoDup_cons in HL as [Hr' HL]. simpl flat_map.
  rewrite filter_app, length_app, IH by done.
  destruct (decide (r' = r)) as [->|Hne].
  - rewrite filter_all, length_combinations.
    + repeat case_decide; try done; try lia.
      destruct H0. left.
    + by intros c [_ ?]%elem_of_combinations.
  - rewrite filter_none.
    + simpl. repeat case_decide; try done.
      * destruct H0. by right.
      * apply elem_of_cons in H0 as [->|?]; done.
    + intros c [_ ?]%elem_of_combinations. congruence.
Qed.

(** [construct_simplex_tree] builds one face object per face visited. *)
Lemma construct_simplex_tree_spec (l : list Z) :
  NoDup l →
  ∃ fs, construct_simplex_tree l = Return fs ∧
        map nodes fs = map list_to_set (faces_in_order l).
Proof.
  intros Hl. unfold construct_simplex_tree.
  assert (Hall : ∀ c, c ∈ faces_in_order l → NoDup c).
  { intros c [Hc _]%elem_of_faces_in_order. by eapply sublist_NoDup. }
  revert Hall. generalize (faces_in_order l) as cs.
  induction cs as [|c cs IH]; intros Hall; simpl.
  { by exists []. }
  destruct IH as (fs & -> & Hfs).
  { intros c' Hc'. apply Hall. by right. }
  unfold Simplex_init_with at 1.
  assert (Hlen : set_len (frozenset (sorted c)) = list_len (sorted c)).
  { apply set_len_list_len_NoDup. unfold sorted.
    rewrite merge_sort_Permutation. apply Hall. left. }
  rewrite Hlen, Z.eqb_refl. simpl.
  eexists. split; [reflexivity|]. simpl.
  by rewrite frozenset_sorted, Hfs.
Qed.

(** ** Construction, faces and boundary of a [Simplex] *)

Lemma choose_gt (n k : nat) : (n < k)%nat → choose n k = 0%nat.
Proof.
  revert k. induction n as [|n IH]; intros [|k] Hk; simpl; try lia.
  rewrite !IH by lia. done.
Qed.

Lemma choose_diag (n : nat) : choose n n = 1%nat.
Proof.
  induction n as [|n IH]; simpl; [done|]. rewrite IH, choose_gt by lia. done.
Qed.

Lemma choose_pred (n : nat) : choose (S n) n = S n.
Proof.
  induction n as [|n IH]; [done|].
  change (choose (S (S n)) (S n)) with (choose (S n) n + choose (S n) (S n))%nat.
  rewrite IH, choose_diag. lia.
Qed.

(** The faces built by [construct_simplex_tree] from a duplicate-free
    list: their node sets, and how many there are of each size. *)
Lemma construct_simplex_tree_faces (l : list Z) (fs : list Simplex) :
  NoDup l → construct_simplex_tree l = Return fs →
  (∀ T, (∃ f, f ∈ fs ∧ nodes f = T) ↔ T ≠ ∅ ∧ T ⊆ list_to_set l) ∧
  (∀ r, length (filter (λ f, size (nodes f) = r) fs)
        = if decide (1 ≤ r ≤ length l)%nat then choose (length l) r else 0%nat).
Proof.
  intros Hl Hfs.
  destruct (construct_simplex_tree_spec l Hl) as (fs' & Hfs' & Hmap).
  rewrite Hfs in Hfs'. injection Hfs' as <-. split.
  - intros T. split.
    + intros (f & Hf & <-).
      assert (nodes f ∈ map nodes fs) as HT.
      { apply list_elem_of_In, in_map, list_elem_of_In, Hf. }
      rewrite Hmap in HT. apply list_elem_of_In, in_map_iff in HT as (c & <- & Hc).
      apply list_elem_of_In, elem_of_faces_in_order in Hc as [Hsub Hne]. split.
      * destruct c as [|x c]; [done|]. set_solver.
      * intros x Hx%elem_of_list_to_set. apply elem_of_list_to_set.
        by eapply elem_of_sublist.
    + intros [Hne HT]. destruct (subset_sublist l T HT) as (c & Hsub & <-).
      assert ((list_to_set c : gset Z) ∈ map nodes fs) as Hin.
      { rewrite Hmap. apply list_elem_of_In, in_map, list_elem_of_In.
        apply elem_of_faces_in_order. split; [done|]. by intros ->. }
      apply list_elem_of_In, in_map_iff in Hin as (f & Hf & Hin).
      exists f. split; [by apply list_elem_of_In|done].
  - intros r.
    pose proof (filter_map_length nodes (λ T : gset Z, size T = r) fs) as H1.
    pose proof (filter_map_length (list_to_set (C:=gset Z))
                  (λ T : gset Z, size T = r) (faces_in_order l)) as H2.
    cbv beta in H1, H2. rewrite <- H1, Hmap, H2.
    rewrite (filter_ext_in _ (λ c : list Z, length c = r)).
    + case_decide as Hr; [by apply count_faces_of_length|].
      rewrite filter_none; [done|].
      intros c [Hsub Hne]%elem_of_faces_in_order <-. apply Hr. split.
      * destruct c; [done|simpl; lia].
      * by apply sublist_length.
    + intros c [Hsub _]%elem_of_faces_in_order.
      rewrite size_list_to_set; [done|]. by eapply sublist_NoDup.
Qed.

Lemma Simplex_init_inv elements name ct attr s :
  Simplex_init elements name ct attr = Return s →
  NoDup elements ∧ nodes s = frozenset elements ∧
  construct_tree s = ct ∧ properties s = attr ∧
  (ct = true → construct_simplex_tree elements = Return (_faces s)).
Proof.
  unfold Simplex_init, Simplex_init_with.
  destruct (set_len (frozenset elements) =? list_len elements) eqn:Hlen;
    simpl; [|discriminate].
  apply Z.eqb_eq, set_len_list_len_NoDup in Hlen.
  destruct ct; simpl.
  - destruct (construct_simplex_tree elements) as [fs|]; simpl; [|discriminate].
    intros [= <-]. simpl. rewrite (right_id_L ∅ (∪)). done.
  - intros [= <-]. simpl. rewrite (right_id_L ∅ (∪)). done.
Qed.

(** X1.  [Simplex(elements)] raises [ValueError] exactly when
    [elements] repeats an item; otherwise it returns an object whose
    nodes are the set of the elements and whose properties are the
    keyword attributes. *)
Theorem Simplex_init_rejects_duplicates elements name ct attr :
  (NoDup elements →
     ∃ s, Simplex_init elements name ct attr = Return s ∧
          nodes s = frozenset elements ∧ properties s = attr ∧
          Simplex_len s = list_len elements) ∧
  (¬ NoDup elements → Simplex_init elements name ct attr = Raise ValueError).
Proof.
  split.
  - intros Hl.
    assert (Hlen : set_len (frozenset elements) = list_len elements)
      by by apply set_len_list_len_NoDup.
    destruct (Simplex_init elements name ct attr) as [s|e] eqn:Hs.
    + apply Simplex_init_inv in Hs as (_ & Hn & _ & Hp & _).
      exists s. unfold Simplex_len. rewrite Hn. done.
    + exfalso. revert Hs. unfold Simplex_init, Simplex_init_with.
      rewrite Hlen, Z.eqb_refl. simpl.
      destruct ct; simpl; [|discriminate].
      destruct (construct_simplex_tree_spec elements Hl) as (fs & -> & _).
      discriminate.
  - intros Hl. unfold Simplex_init, Simplex_init_with.
    destruct (set_len (frozenset elements) =? list_len elements) eqn:Hlen;
      [|done].
    apply Z.eqb_eq, set_len_list_len_NoDup in Hlen. done.
Qed.

Lemma Simplex_init_rejects_duplicates_witness :
  (∃ s, Simplex_init [3; 1; 2] None true ∅ = Return s ∧
        nodes s = frozenset [3; 1; 2] ∧ properties s = ∅ ∧
        Simplex_len s = list_len [3; 1; 2]) ∧
  Simplex_init [1; 2; 1] None true ∅ = Raise ValueError.
Proof.
  split.
  - apply (Simplex_init_rejects_duplicates [3; 1; 2] None true ∅).
    refine (bool_decide_unpack _ _). vm_compute. exact I.
  - apply (Simplex_init_rejects_duplicates [1; 2; 1] None true ∅).
    intros H. apply NoDup_cons in H as [H _]. apply H. set_solver.
Defined.

Lemma ascending_perm (s : gset Z) : ascending s ≡ₚ elements s.
Proof. unfold ascending, sorted. apply merge_sort_Permutation. Qed.

Lemma as_created_perm (l : list Simplex) : as_created l ≡ₚ l.
Proof. reflexivity. Qed.

Section SimplexFaces.
Variable iter_nodes : gset Z → list Z.
Hypothesis iter_nodes_perm : ∀ s, iter_nodes s ≡ₚ elements s.

Lemma iter_nodes_list_to_set (l : list Z) :
  NoDup l →
  NoDup (iter_nodes (list_to_set l)) ∧
  length (iter_nodes (list_to_set l)) = length l ∧
  (list_to_set (iter_nodes (list_to_set l)) : gset Z) = list_to_set l.
Proof.
  intros Hl.
  assert (Hp : iter_nodes (list_to_set l) ≡ₚ l).
  { rewrite iter_nodes_perm. by apply elements_list_to_set. }
  split; [by rewrite Hp|]. split; [by rewrite Hp|].
  apply set_eq. intros x. rewrite !elem_of_list_to_set. by rewrite Hp.
Qed.

Lemma frozenset_iter_nodes (s : gset Z) : frozenset (iter_nodes s) = s.
Proof.
  unfold frozenset. apply set_eq. intros x.
  rewrite elem_of_list_to_set, iter_nodes_perm. apply elem_of_elements.
Qed.

Lemma length_iter_nodes (s : gset Z) : length (iter_nodes s) = size s.
Proof. by rewrite iter_nodes_perm. Qed.

Lemma NoDup_iter_nodes (s : gset Z) : NoDup (iter_nodes s).
Proof. rewrite iter_nodes_perm. apply NoDup_elements. Qed.

(** X2.  The [faces] of a simplex built from [k] distinct elements are
    the objects of its non-empty subsets, the simplex itself among
    them: one face for every non-empty subset of the nodes, hence
    [choose k r] faces of each size [r] from 1 to [k] and none of
    another size. *)
Theorem Simplex_faces_enumerate elements name ct attr s :
  Simplex_init elements name ct attr = Return s →
  ∃ fs, Simplex_faces iter_nodes s = Return fs ∧
    (∀ T, (∃ f, f ∈ fs ∧ nodes f = T) ↔ T ≠ ∅ ∧ T ⊆ nodes s) ∧
    (∀ r, length (filter (λ f, size (nodes f) = r) fs)
          = if decide (1 ≤ r ≤ length elements)%nat
            then choose (length elements) r else 0%nat).
Proof.
  intros (Hl & Hn & Hct & _ & Htree)%Simplex_init_inv.
  unfold Simplex_faces. rewrite Hct, Hn. unfold frozenset. destruct ct.
  - exists (_faces s). split; [done|].
    by apply construct_simplex_tree_faces; [|apply Htree].
  - destruct (iter_nodes_list_to_set elements Hl) as (Hl' & Hlen & Hset).
    destruct (construct_simplex_tree_spec _ Hl') as (fs & Hfs & _).
    exists fs. split; [done|].
    destruct (construct_simplex_tree_faces _ fs Hl' Hfs) as [H1 H2].
    rewrite Hset in H1. rewrite Hlen in H2. done.
Qed.

End SimplexFaces.

Lemma Simplex_faces_enumerate_witness :
  ∃ s fs, Simplex_init [1; 2; 3] None false ∅ = Return s ∧
    Simplex_faces ascending s = Return fs ∧
    (∀ T, (∃ f, f ∈ fs ∧ nodes f = T) ↔ T ≠ ∅ ∧ T ⊆ nodes s) ∧
    (∀ r, length (filter (λ f, size (nodes f) = r) fs)
          = if decide (1 ≤ r ≤ 3)%nat then choose 3 r else 0%nat).
Proof.
  destruct (Simplex_init [1; 2; 3] None false ∅) as [s|] eqn:Hs;
    [|vm_compute in Hs; discriminate].
  destruct (Simplex_faces_enumerate ascending ascending_perm
              [1; 2; 3] None false ∅ s Hs) as (fs & Hfs & H1 & H2).
  exists s, fs. split; [reflexivity|]. split; [exact Hfs|].
  split; [exact H1|exact H2].
Defined.

Section SimplexBoundary.
Variable iter_nodes : gset Z → list Z.
Hypothesis iter_nodes_perm : ∀ s, iter_nodes s ≡ₚ elements s.

(** X3.  The [boundary] of a simplex built from [k] distinct elements
    holds one face for every subset of the nodes with one node less:
    [k] faces when [k] is at least 2, and none for a single node, whose
    only smaller subset is empty. *)
Theorem Simplex_boundary_enumerate elements name ct attr s :
  Simplex_init elements name ct attr = Return s →
  ∃ bs, Simplex_boundary iter_nodes s = Return bs ∧
    (∀ T, (∃ f, f ∈ bs ∧ nodes f = T) ↔
          T ≠ ∅ ∧ T ⊆ nodes s ∧ (size T + 1 = size (nodes s))%nat) ∧
    length bs = if decide (2 ≤ length elements)%nat
                then length elements else 0%nat.
Proof.
  intros Hs.
  destruct (Simplex_faces_enumerate iter_nodes iter_nodes_perm
              _ _ _ _ _ Hs) as (fs & Hfs & Hsub & Hcount).
  apply Simplex_init_inv in Hs as (Hl & Hn & Hct & _ & _).
  assert (Hsize : size (nodes s) = length elements).
  { rewrite Hn. unfold frozenset. by rewrite size_list_to_set. }
  exists (filter (λ i, Simplex_len i = Simplex_len s - 1) fs). split.
  { unfold Simplex_boundary. unfold Simplex_faces in Hfs.
    destruct (construct_tree s); [by injection Hfs as <-|].
    by rewrite Hfs. }
  assert (Hpred : ∀ f, Simplex_len f = Simplex_len s - 1 ↔
                       (size (nodes f) + 1 = size (nodes s))%nat).
  { intros f. unfold Simplex_len, set_len. lia. }
  split.
  - intros T. split.
    + intros (f & Hf & <-). apply list_elem_of_filter in Hf as [Hlen Hf].
      apply Hpred in Hlen.
      destruct (proj1 (Hsub (nodes f))) as [? ?]; [by exists f|]. done.
    + intros (Hne & HT & Hlen).
      destruct (proj2 (Hsub T)) as (f & Hf & <-); [done|].
      exists f. split; [|done]. apply list_elem_of_filter. split; [|done].
      by apply Hpred.
  - destruct (length elements) as [|k] eqn:Hk.
    { rewrite decide_False by lia. rewrite filter_none; [done|].
      intros f _ Hf%Hpred. lia. }
    rewrite (filter_ext_in _ (λ f, size (nodes f) = k)).
    2:{ intros f _. rewrite Hpred. lia. }
    rewrite Hcount. destruct k as [|k].
    + rewrite (decide_False (P:=(1 ≤ 0 ≤ 1)%nat)) by lia.
      rewrite decide_False by lia. done.
    + rewrite (decide_True (P:=(1 ≤ S k ≤ S (S k))%nat)) by lia.
      rewrite decide_True by lia. apply choose_pred.
Qed.

End SimplexBoundary.

Lemma Simplex_boundary_enumerate_witness :
  ∃ s bs, Simplex_init [1; 2; 3] None true ∅ = Return s ∧
    Simplex_boundary ascending s = Return bs ∧
    (∀ T, (∃ f, f ∈ bs ∧ nodes f = T) ↔
          T ≠ ∅ ∧ T ⊆ nodes s ∧ (size T + 1 = size (nodes s))%nat) ∧
    length bs = 3%nat.
Proof.
  destruct (Simplex_init [1; 2; 3] None true ∅) as [s|] eqn:Hs;
    [|vm_compute in Hs; discriminate].
  destruct (Simplex_boundary_enumerate ascending ascending_perm
              [1; 2; 3] None true ∅ s Hs) as (bs & Hbs & H1 & H2).
  exists s, bs. split; [reflexivity|]. split; [exact Hbs|].
  split; [exact H1|exact H2].
Defined.

(** X4.  Attribute access on a [Simplex]: after [s[key] = item],
    reading [key] returns [item] and every other name reads as before;
    reading a name that was never set raises [KeyError]; the nodes are
    untouched. *)
Theorem Simplex_setitem_getitem (s : Simplex) (key other : string) (item : pyval) :
  Simplex_getitem (Simplex_setitem s key item) key = Return item ∧
  (other ≠ key →
     Simplex_getitem (Simplex_setitem s key item) other
     = Simplex_getitem s other) ∧
  (properties s !! other = None → Simplex_getitem s other = Raise KeyError) ∧
  nodes (Simplex_setitem s key item) = nodes s.
Proof.
  unfold Simplex_getitem, Simplex_setitem. simpl.
  split; [by rewrite lookup_insert_eq|].
  split; [intros Hne; by rewrite lookup_insert_ne|].
  split; [by intros ->|done].
Qed.

Lemma Simplex_setitem_getitem_witness :
  ∃ s, Simplex_init [1; 2] None true ∅ = Return s ∧
    Simplex_getitem (Simplex_setitem s "weight" (VInt 5)) "weight"
    = Return (VInt 5) ∧
    Simplex_getitem (Simplex_setitem s "weight" (VInt 5)) "color"
    = Simplex_getitem s "color" ∧
    Simplex_getitem s "color" = Raise KeyError.
Proof.
  destruct (Simplex_init [1; 2] None true ∅) as [s|] eqn:Hs;
    [|vm_compute in Hs; discriminate].
  exists s. split; [reflexivity|].
  destruct (Simplex_setitem_getitem s "weight" "color" (VInt 5))
    as (H1 & H2 & H3 & _).
  split; [exact H1|]. split; [apply H2; discriminate|].
  apply H3. apply Simplex_init_inv in Hs as (_ & _ & _ & -> & _).
  reflexivity.
Defined.

(** ** Running the reads and writes of [self.faces_dict] *)

Lemma py_index_lt n i k : py_index n i = Some k → (k < n)%nat.
Proof. unfold py_index. repeat case_decide; intros [= <-]; lia. Qed.

Lemma py_index_nonneg n i :
  0 ≤ i →
  py_index n i = if decide (i < Z.of_nat n) then Some (Z.to_nat i) else None.
Proof. intros Hi. unfold py_index. repeat case_decide; try done; lia. Qed.

Lemma slot_Some s i n d :
  slot s i = Some (n, d) →
  py_index (length (faces_dict s)) i = Some n ∧ faces_dict s !! n = Some d.
Proof.
  unfold slot. destruct (py_index _ i) as [k|]; [|done].
  destruct (faces_dict s !! k) as [d'|] eqn:Hd; [|done].
  by intros [= <- <-].
Qed.

Lemma slot_nonneg s i n d :
  0 ≤ i → slot s i = Some (n, d) → n = Z.to_nat i.
Proof.
  intros Hi [Hn _]%slot_Some. rewrite py_index_nonneg in Hn by done.
  case_decide; congruence.
Qed.

Lemma slot_lookup s n d :
  faces_dict s !! n = Some d → slot s (Z.of_nat n) = Some (n, d).
Proof.
  intros Hd. unfold slot. rewrite py_index_nonneg by lia.
  apply lookup_lt_Some in Hd as Hlt.
  rewrite decide_True by lia. by rewrite Nat2Z.id, Hd.
Qed.

Lemma dict_at_run i s :
  dict_at i s = match slot s i with
                | Some nd => (Return nd, s)
                | None => (Raise IndexError, s)
                end.
Proof.
  unfold dict_at, slot, bind, get_state, ret, raise.
  destruct (py_index _ i) as [n|]; [|done].
  by destruct (faces_dict s !! n).
Qed.

Lemma dict_contains_run i key s :
  dict_contains i key s
  = match slot s i with
    | Some (_, d) => (Return (bool_decide (is_Some (d !! key))), s)
    | None => (Raise IndexError, s)
    end.
Proof.
  unfold dict_contains, bind. rewrite dict_at_run.
  by destruct (slot s i) as [[n d]|].
Qed.

Lemma dict_len_run i s :
  dict_len i s = match slot s i with
                 | Some (_, d) => (Return (Z.of_nat (size d)), s)
                 | None => (Raise IndexError, s)
                 end.
Proof.
  unfold dict_len, bind. rewrite dict_at_run.
  by destruct (slot s i) as [[n d]|].
Qed.

Lemma record_at_run i key s :
  record_at i key s
  = match slot s i with
    | Some (_, d) =>
        match d !! key with
        | Some r => (Return r, s)
        | None => (Raise KeyError, s)
        end
    | None => (Raise IndexError, s)
    end.
Proof.
  unfold record_at, bind. rewrite dict_at_run.
  destruct (slot s i) as [[n d]|]; [|done]. by destruct (d !! key).
Qed.

Lemma store_record_run i key r s :
  store_record i key r s
  = match slot s i with
    | Some (n, d) => (Return tt, set_slot s n (<[key := r]> d))
    | None => (Raise IndexError, s)
    end.
Proof.
  unfold store_record, bind. rewrite dict_at_run.
  by destruct (slot s i) as [[n d]|].
Qed.

Lemma del_record_run i key s :
  del_record i key s
  = match slot s i with
    | Some (n, d) =>
        match d !! key with
        | Some _ => (Return tt, set_slot s n (delete key d))
        | None => (Raise KeyError, s)
        end
    | None => (Raise IndexError, s)
    end.
Proof.
  unfold del_record, bind. rewrite dict_at_run.
  destruct (slot s i) as [[n d]|]; [|done]. by destruct (d !! key).
Qed.

Lemma del_dict_run i s :
  del_dict i s
  = match slot s i with
    | Some (n, _) => (Return tt, mkView (max_dim s) (delete n (faces_dict s)))
    | None => (Raise IndexError, s)
    end.
Proof.
  unfold del_dict, bind. rewrite dict_at_run.
  by destruct (slot s i) as [[n d]|].
Qed.

Lemma field_at_run i key field s :
  field_at i key field s
  = match slot s i with
    | Some (_, d) =>
        match d !! key with
        | Some r =>
            match r !! field with
            | Some v => (Return v, s)
            | None => (Raise KeyError, s)
            end
        | None => (Raise KeyError, s)
        end
    | None => (Raise IndexError, s)
    end.
Proof.
  unfold field_at, bind. rewrite record_at_run.
  destruct (slot s i) as [[n d]|]; [|done].
  destruct (d !! key) as [r|]; [|done]. by destruct (r !! field).
Qed.

Lemma store_field_run i key field v s :
  store_field i key field v s
  = match slot s i with
    | Some (n, d) =>
        match d !! key with
        | Some r => (Return tt, set_slot s n (<[key := <[field := v]> r]> d))
        | None => (Raise KeyError, s)
        end
    | None => (Raise IndexError, s)
    end.
Proof.
  unfold store_field, bind. rewrite record_at_run.
  destruct (slot s i) as [[n d]|] eqn:Hs; [|done].
  destruct (d !! key) as [r|]; [|done].
  by rewrite store_record_run, Hs.
Qed.

Lemma update_record_run i key attr s :
  update_record i key attr s
  = match slot s i with
    | Some (n, d) =>
        match d !! key with
        | Some r => (Return tt, set_slot s n (<[key := attr ∪ r]> d))
        | None => (Raise KeyError, s)
        end
    | None => (Raise IndexError, s)
    end.
Proof.
  unfold update_record, bind. rewrite record_at_run.
  destruct (slot s i) as [[n d]|] eqn:Hs; [|done].
  destruct (d !! key) as [r|]; [|done].
  by rewrite store_record_run, Hs.
Qed.

(** * The storage engine *)

(** ** Invariants through the monad *)

Lemma preserves_ret {A} I (a : A) : preserves I (ret a).
Proof. by intros s. Qed.

Lemma preserves_raise {A} I e : preserves I (@raise A e).
Proof. by intros s. Qed.

Lemma preserves_bind {A B} I (m : M A) (f : A → M B) :
  preserves I m → (∀ a, preserves I (f a)) → preserves I (bind m f).
Proof.
  intros Hm Hf s Hs. unfold bind. specialize (Hm s Hs).
  destruct (m s) as [[a|e] s']; simpl in *; [by apply Hf|done].
Qed.

Lemma preserves_readonly {A} I (m : M A) : readonly m → preserves I m.
Proof. intros Hm s Hs. by rewrite Hm. Qed.

Lemma preserves_foldM {A B} I (f : B → A → M B) l :
  (∀ b x, x ∈ l → preserves I (f b x)) → ∀ b, preserves I (foldM f b l).
Proof.
  induction l as [|x l IH]; intros Hf b; simpl.
  - apply preserves_ret.
  - apply preserves_bind.
    + apply Hf. left.
    + intros b'. apply IH. intros ???. apply Hf. by right.
Qed.

Lemma preserves_forM_ {A} I (f : A → M unit) l :
  (∀ x, x ∈ l → preserves I (f x)) → preserves I (forM_ f l).
Proof.
  induction l as [|x l IH]; intros Hf; simpl.
  - apply preserves_ret.
  - apply preserves_bind.
    + apply Hf. left.
    + intros _. apply IH. intros ??. apply Hf. by right.
Qed.

Lemma readonly_ret {A} (a : A) : readonly (ret a).
Proof. done. Qed.

Lemma readonly_raise {A} e : readonly (@raise A e).
Proof. done. Qed.

Lemma readonly_bind {A B} (m : M A) (f : A → M B) :
  readonly m → (∀ a, readonly (f a)) → readonly (bind m f).
Proof.
  intros Hm Hf s. unfold bind. specialize (Hm s).
  destruct (m s) as [[a|e] s']; simpl in *; subst; [apply Hf|done].
Qed.

Lemma readonly_get_state : readonly get_state.
Proof. done. Qed.

Lemma readonly_lift_outcome {A} (o : outcome A) : readonly (lift_outcome o).
Proof. by destruct o. Qed.

Lemma readonly_dict_at i : readonly (dict_at i).
Proof. intros s. rewrite dict_at_run. by destruct (slot s i). Qed.

Lemma readonly_dict_contains i key : readonly (dict_contains i key).
Proof. intros s. rewrite dict_contains_run. by destruct (slot s i) as [[]|]. Qed.

Lemma readonly_dict_len i : readonly (dict_len i).
Proof. intros s. rewrite dict_len_run. by destruct (slot s i) as [[]|]. Qed.

Lemma readonly_record_at i key : readonly (record_at i key).
Proof.
  intros s. rewrite record_at_run.
  destruct (slot s i) as [[n d]|]; [|done]. by destruct (d !! key).
Qed.

Lemma readonly_field_at i key field : readonly (field_at i key field).
Proof.
  apply readonly_bind; [apply readonly_record_at|].
  intros r. by destruct (r !! field).
Qed.

Lemma readonly_membership_at i key : readonly (membership_at i key).
Proof.
  apply readonly_bind; [apply readonly_field_at|]. by intros [].
Qed.

Lemma readonly_membership_len i key : readonly (membership_len i key).
Proof.
  apply readonly_bind; [apply readonly_field_at|]. by intros [].
Qed.

(** ** The slots of a view *)

Lemma lookup_set_slot s n d m :
  (n < length (faces_dict s))%nat →
  faces_dict (set_slot s n d) !! m
  = if decide (m = n) then Some d else faces_dict s !! m.
Proof.
  intros Hn. simpl. case_decide as Hm.
  - subst. by apply list_lookup_insert_eq.
  - by apply list_lookup_insert_ne.
Qed.

Lemma slot_set_slot s i n d d' :
  slot s i = Some (n, d) → slot (set_slot s n d') i = Some (n, d').
Proof.
  intros [Hn Hd]%slot_Some. unfold slot. simpl.
  rewrite length_insert, Hn.
  apply lookup_lt_Some in Hd. by rewrite list_lookup_insert_eq.
Qed.

Lemma dims_ok_set_slot s n d d' :
  dims_ok s → faces_dict s !! n = Some d →
  (∀ K, is_Some (d' !! K) → is_Some (d !! K) ∨ size K = S n) →
  dims_ok (set_slot s n d').
Proof.
  intros [Hmax Hkeys] Hd Hd'. split.
  - simpl. unfold list_len in *. by rewrite length_insert.
  - intros m e K He HK.
    rewrite lookup_set_slot in He by by eapply lookup_lt_Some.
    case_decide as Hm.
    + injection He as <-. subst m.
      destruct (Hd' K HK) as [HK'|]; [|done]. by eapply Hkeys.
    + by eapply Hkeys.
Qed.

Lemma is_Some_lookup_insert_present {V} (d : gmap (gset Z) V) key v K :
  is_Some (d !! key) → is_Some (<[key := v]> d !! K) → is_Some (d !! K).
Proof.
  intros Hkey. destruct (decide (K = key)) as [->|Hne]; [done|].
  by rewrite lookup_insert_ne.
Qed.

Lemma preserves_dims_ok_store_field i key field v :
  preserves dims_ok (store_field i key field v).
Proof.
  intros s Hs. rewrite store_field_run.
  destruct (slot s i) as [[n d]|] eqn:Hsl; [|done].
  destruct (d !! key) as [r|] eqn:Hr; [|done]. simpl.
  apply slot_Some in Hsl as [_ Hd].
  eapply dims_ok_set_slot; [done..|].
  intros K HK. left. eapply is_Some_lookup_insert_present; [|done]. by rewrite Hr.
Qed.

Lemma preserves_dims_ok_update_record i key attr :
  preserves dims_ok (update_record i key attr).
Proof.
  intros s Hs. rewrite update_record_run.
  destruct (slot s i) as [[n d]|] eqn:Hsl; [|done].
  destruct (d !! key) as [r|] eqn:Hr; [|done]. simpl.
  apply slot_Some in Hsl as [_ Hd].
  eapply dims_ok_set_slot; [done..|].
  intros K HK. left. eapply is_Some_lookup_insert_present; [|done]. by rewrite Hr.
Qed.

Lemma preserves_dims_ok_del_record i key :
  preserves dims_ok (del_record i key).
Proof.
  intros s Hs. rewrite del_record_run.
  destruct (slot s i) as [[n d]|] eqn:Hsl; [|done].
  destruct (d !! key) as [r|] eqn:Hr; [|done]. simpl.
  apply slot_Some in Hsl as [_ Hd].
  eapply dims_ok_set_slot; [done..|].
  intros K [x HK]. left. apply lookup_delete_Some in HK as [_ HK]. by eexists.
Qed.

Lemma preserves_dims_ok_store_record i key r :
  0 ≤ i → set_len key = i + 1 →
  preserves dims_ok (store_record i key r).
Proof.
  intros Hi Hkey s Hs. rewrite store_record_run.
  destruct (slot s i) as [[n d]|] eqn:Hsl; [|done]. simpl.
  pose proof (slot_nonneg _ _ _ _ Hi Hsl) as ->.
  apply slot_Some in Hsl as [_ Hd].
  eapply dims_ok_set_slot; [done..|].
  intros K HK. destruct (decide (K = key)) as [->|Hne].
  - right. unfold set_len in Hkey. lia.
  - left. by rewrite lookup_insert_ne in HK.
Qed.

Lemma preserves_dims_ok_membership_add i key x :
  preserves dims_ok (membership_add i key x).
Proof.
  apply preserves_bind.
  - apply preserves_readonly, readonly_membership_at.
  - intros m. apply preserves_dims_ok_store_field.
Qed.

Lemma preserves_dims_ok_membership_remove i key x :
  preserves dims_ok (membership_remove i key x).
Proof.
  apply preserves_bind.
  - apply preserves_readonly, readonly_membership_at.
  - intros m. case_bool_decide.
    + apply preserves_dims_ok_store_field.
    + apply preserves_raise.
Qed.

Lemma bind_Return {A B} (m : M A) (f : A → M B) s a s' :
  m s = (Return a, s') → bind m f s = f a s'.
Proof. unfold bind. by intros ->. Qed.

Lemma bind_Raise {A B} (m : M A) (f : A → M B) s e s' :
  m s = (Raise e, s') → bind m f s = (Raise e, s').
Proof. unfold bind. by intros ->. Qed.

Create HintDb preserves discriminated.
#[export] Hint Resolve preserves_dims_ok_store_field preserves_dims_ok_update_record
  preserves_dims_ok_del_record preserves_dims_ok_membership_add
  preserves_dims_ok_membership_remove : preserves.
#[export] Hint Resolve readonly_dict_at readonly_dict_contains readonly_dict_len
  readonly_record_at readonly_field_at readonly_membership_at
  readonly_membership_len readonly_get_state readonly_lift_outcome : preserves.

Ltac preserves_step :=
  lazymatch goal with
  | |- preserves _ (bind _ _) => apply preserves_bind; [|intros ?]
  | |- preserves _ (ret _) => apply preserves_ret
  | |- preserves _ (raise _) => apply preserves_raise
  | |- preserves _ (if ?b then _ else _) => destruct b eqn:?
  | |- preserves _ _ =>
      first [ solve [eauto with preserves]
            | solve [apply preserves_readonly; eauto with preserves] ]
  end.

Lemma preserves_dims_ok_entry face simplex_ mf attr :
  face ≠ [] → NoDup face →
  preserves dims_ok (_update_faces_dict_entry face simplex_ mf attr).
Proof.
  intros Hne Hnd. unfold _update_faces_dict_entry.
  assert (0 ≤ list_len face - 1) as Hk.
  { unfold list_len. destruct face; [done|simpl; lia]. }
  assert (set_len (frozenset (sorted face)) = list_len face - 1 + 1) as Hkey.
  { rewrite frozenset_sorted.
    pose proof (proj2 (set_len_list_len_NoDup face) Hnd) as H.
    unfold frozenset in H. lia. }
  pose proof (preserves_dims_ok_store_record _ _ new_maximal Hk Hkey).
  pose proof (preserves_dims_ok_store_record _ _ (new_face simplex_) Hk Hkey).
  repeat preserves_step.
Qed.

Lemma dims_ok_extend s k :
  dims_ok s → (length (faces_dict s) < k)%nat →
  dims_ok (mkView (Z.of_nat k - 1)
             (faces_dict s ++ replicate (k - length (faces_dict s)) ∅)).
Proof.
  intros [Hmax Hkeys] Hlt. split; simpl.
  - unfold list_len. rewrite length_app, length_replicate. lia.
  - intros n d K Hd HK. apply lookup_app_Some in Hd as [Hd|[_ Hd]].
    + by eapply Hkeys.
    + apply lookup_replicate in Hd as [-> _].
      rewrite lookup_empty in HK. by destruct HK.
Qed.

Lemma _update_faces_dict_length_run K s :
  _update_faces_dict_length K s
  = (Return tt,
     if list_len (faces_dict s) <? set_len K then
       mkView (max_dim s)
         (faces_dict s ++
          replicate (Z.to_nat (set_len K - list_len (faces_dict s))) ∅)
     else s).
Proof.
  unfold _update_faces_dict_length, bind, get_state. by case_match.
Qed.

Lemma bind_run {A B} (m : M A) (f : A → M B) s :
  bind m f s = match m s with
               | (Return a, s') => f a s'
               | (Raise e, s') => (Raise e, s')
               end.
Proof. reflexivity. Qed.

Lemma slot_extended m l k :
  (length l < k)%nat →
  slot (mkView m (l ++ replicate (k - length l) ∅)) (Z.of_nat k - 1)
  = Some ((k - 1)%nat, ∅).
Proof.
  intros Hlt. unfold slot. simpl.
  rewrite length_app, length_replicate, py_index_nonneg by lia.
  rewrite decide_True by lia.
  replace (Z.to_nat (Z.of_nat k - 1)) with (k - 1)%nat by lia.
  rewrite lookup_app_r by lia.
  by rewrite lookup_replicate_2 by lia.
Qed.

Section Invariants.
Variable iter_nodes : gset Z → list Z.
Variable iter_faces : list Simplex → list Simplex.
Hypothesis iter_nodes_perm : ∀ s, iter_nodes s ≡ₚ elements s.
Hypothesis iter_faces_perm : ∀ l, iter_faces l ≡ₚ l.

Lemma preserves_dims_ok_insert_loop simplex_ attr mf :
  preserves dims_ok
    (foldM (λ maximal_faces face,
              _update_faces_dict_entry face simplex_ maximal_faces attr)
       mf (flat_map (combinations (iter_nodes simplex_))
             (range_down (size simplex_)))).
Proof.
  apply preserves_foldM. intros b face Hface.
  rewrite <- (length_iter_nodes iter_nodes iter_nodes_perm) in Hface.
  apply elem_of_faces_in_order in Hface as [Hsub Hne].
  apply preserves_dims_ok_entry; [done|].
  eapply sublist_NoDup; [by apply NoDup_iter_nodes|exact Hsub].
Qed.

Lemma insert_simplex_dims_ok simplex attr :
  preserves dims_ok (insert_simplex iter_nodes simplex attr).
Proof.
  intros s Hs. unfold insert_simplex.
  set (simplex' := match simplex with PInt z => PSeq [z] | _ => simplex end).
  match goal with
  | |- dims_ok (snd (bind ?m ?f s)) =>
      assert ((∃ e, m s = (Raise e, s)) ∨
              (∃ K, m s = (Return K, s) ∧ arg_len simplex' = set_len K)) as HA
  end.
  { destruct simplex'; simpl; try (case_match; simpl; [by left; eexists|]);
      right; eexists; (split; [reflexivity|]).
    all: try (apply negb_false_iff in H; symmetry; by apply Z.eqb_eq).
    reflexivity. }
  destruct HA as [[e HA]|(K & HA & Hlen)].
  { by rewrite (bind_Raise _ _ _ _ _ HA). }
  rewrite (bind_Return _ _ _ _ _ HA). clear HA.
  rewrite (bind_Return _ _ _ _ _ (_update_faces_dict_length_run K s)).
  assert (Hrest : ∀ mf, preserves dims_ok
            (foldM (λ maximal_faces face,
                      _update_faces_dict_entry face K maximal_faces attr)
               mf (flat_map (combinations (iter_nodes K)) (range_down (size K))) >>
             match simplex' with
             | PSimplex s1 => update_record (set_len K - 1) K (properties s1)
             | _ => update_record (set_len K - 1) K attr
             end)).
  { intros mf. apply preserves_bind; [apply preserves_dims_ok_insert_loop|].
    intros _. destruct simplex'; apply preserves_dims_ok_update_record. }
  destruct Hs as [Hmax Hkeys].
  destruct (list_len (faces_dict s) <? set_len K) eqn:Hext.
  - (* the list of dictionaries was extended *)
    apply Z.ltb_lt in Hext. unfold set_len, list_len in Hext.
    assert (Z.to_nat (set_len K - list_len (faces_dict s))
            = (size K - length (faces_dict s))%nat) as -> by (unfold set_len, list_len; lia).
    erewrite bind_Return; last first.
    { rewrite dict_contains_run.
      replace (set_len K - 1) with (Z.of_nat (size K) - 1) by done.
      rewrite slot_extended by lia. reflexivity. }
    rewrite lookup_empty, bool_decide_eq_false_2 by (by intros []).
    erewrite bind_Return by reflexivity. cbn [max_dim].
    rewrite Hlen, Hmax.
    replace (list_len (faces_dict s) - 1 <? set_len K - 1) with true
      by (symmetry; apply Z.ltb_lt; unfold set_len, list_len; lia).
    erewrite bind_Return by reflexivity. cbn [faces_dict].
    apply Hrest. apply dims_ok_extend; [done|lia].
  - (* it was long enough *)
    apply Z.ltb_ge in Hext.
    rewrite bind_run, dict_contains_run.
    destruct (slot s (set_len K - 1)) as [[n d]|]; [|done].
    case_bool_decide.
    { by apply preserves_dims_ok_update_record. }
    erewrite bind_Return by reflexivity.
    rewrite Hlen, Hmax.
    replace (list_len (faces_dict s) - 1 <? set_len K - 1) with false
      by (symmetry; apply Z.ltb_ge; lia).
    erewrite bind_Return by reflexivity.
    by apply Hrest.
Qed.
Lemma readonly_SimplexView_contains e :
  readonly (SimplexView_contains iter_nodes e).
Proof.
  intros s. unfold SimplexView_contains. rewrite bind_run. simpl.
  case_match; [done|].
  destruct e; repeat case_match; try done; apply readonly_dict_contains.
Qed.

Lemma readonly_SimplexView_getitem simplex :
  readonly (SimplexView_getitem iter_nodes simplex).
Proof.
  destruct simplex; simpl.
  all: apply readonly_bind;
    [first [apply readonly_dict_contains|apply readonly_SimplexView_contains]|].
  all: intros []; try done.
  all: apply readonly_bind; [apply readonly_record_at|done].
Qed.

Lemma preserves_dims_ok_repair_face simplex simplex_ f :
  preserves dims_ok (repair_face simplex simplex_ f).
Proof. unfold repair_face. repeat preserves_step. Qed.

Lemma preserves_dims_ok_drop_top i :
  preserves dims_ok
    (let! n := dict_len i in
     let! s := get_state in
     if (n =? 0) && (i =? max_dim s) then
       del_dict i >>
       let! s := get_state in
       set_max_dim (list_len (faces_dict s) - 1)
     else ret tt).
Proof.
  intros s Hs. rewrite bind_run, dict_len_run.
  destruct (slot s i) as [[n d]|] eqn:Hsl; [|done].
  erewrite bind_Return by reflexivity.
  destruct ((Z.of_nat (size d) =? 0) && (i =? max_dim s)) eqn:Hc; [|done].
  apply andb_true_iff in Hc as [_ Hi%Z.eqb_eq].
  rewrite bind_run, del_dict_run, Hsl. simpl.
  destruct Hs as [Hmax Hkeys]. apply slot_Some in Hsl as [Hn Hd].
  apply lookup_lt_Some in Hd as Hlt. unfold list_len in Hmax.
  rewrite py_index_nonneg in Hn by lia. case_decide; [|done].
  injection Hn as <-.
  split; [done|]. simpl. intros m e K He HK.
  destruct (decide (m < Z.to_nat i)%nat).
  - rewrite list_lookup_delete_lt in He by done. by eapply Hkeys.
  - rewrite list_lookup_delete_ge in He by lia.
    apply lookup_lt_Some in He. lia.
Qed.

Lemma remove_maximal_simplex_dims_ok simplex :
  preserves dims_ok (remove_maximal_simplex iter_nodes iter_faces simplex).
Proof.
  unfold remove_maximal_simplex.
  apply preserves_bind.
  { destruct simplex; repeat preserves_step. }
  intros simplex_.
  apply preserves_bind; [repeat preserves_step|]. intros [|]; [|apply preserves_raise].
  apply preserves_bind.
  { apply preserves_readonly, readonly_SimplexView_getitem. }
  intros r. apply preserves_bind.
  { destruct r as [r|]; [destruct (r !! "is_maximal")|]; repeat preserves_step. }
  intros flag. destruct (truthy flag); [|apply preserves_raise].
  apply preserves_bind; [repeat preserves_step|]. intros _.
  apply preserves_bind; [repeat preserves_step|]. intros whole.
  apply preserves_bind; [repeat preserves_step|]. intros faces.
  apply preserves_bind.
  { apply preserves_forM_. intros f _. apply preserves_dims_ok_repair_face. }
  intros _. apply preserves_dims_ok_drop_top.
Qed.

Lemma dims_ok_empty_view : dims_ok empty_view.
Proof. split; [done|]. intros n d K Hd. cbn in Hd. done. Qed.

(** X5.  Whatever calls of [insert_simplex] and [remove_maximal_simplex]
    a client makes on a fresh view, and whether they return or raise,
    [max_dim] is the last index of [faces_dict] and every key stored in
    [faces_dict[i]] has exactly [i + 1] nodes. *)
Theorem dims_ok_reachable s :
  reachable iter_nodes iter_faces s → dims_ok s.
Proof.
  induction 1 as [|s simplex attr _ IH|s simplex _ IH].
  - apply dims_ok_empty_view.
  - by apply insert_simplex_dims_ok.
  - by apply remove_maximal_simplex_dims_ok.
Qed.

Lemma add_simplices_from_dims_ok simplices :
  preserves dims_ok (add_simplices_from iter_nodes simplices).
Proof.
  destruct simplices as [l|]; simpl; [|apply preserves_raise].
  apply preserves_forM_. intros x _. apply insert_simplex_dims_ok.
Qed.

End Invariants.

Lemma run_Return {A} (m : M A) s a :
  fst (m s) = Return a → m s = (Return a, snd (m s)).
Proof. destruct (m s) as [o s']. simpl. by intros ->. Qed.

Lemma bind_Return_inv {A B} (m : M A) (f : A → M B) s b s' :
  bind m f s = (Return b, s') →
  ∃ a s1, m s = (Return a, s1) ∧ f a s1 = (Return b, s').
Proof.
  unfold bind. destruct (m s) as [[a|e] s1]; [|done]. intros H. by exists a, s1.
Qed.

Lemma shape_set_slot_present s n d K r :
  faces_dict s !! n = Some d → is_Some (d !! K) →
  shape (set_slot s n (<[K := r]> d)) = shape s.
Proof.
  intros Hd HK. unfold shape. simpl. rewrite list_fmap_insert.
  rewrite map_size_insert_Some by done.
  apply list_insert_id. by rewrite list_lookup_fmap, Hd.
Qed.

Section Methods.
Variable iter_nodes : gset Z → list Z.
Variable iter_faces : list Simplex → list Simplex.
Hypothesis iter_nodes_perm : ∀ s, iter_nodes s ≡ₚ elements s.
Hypothesis iter_faces_perm : ∀ l, iter_faces l ≡ₚ l.

(** The first step of [insert_simplex]: the canonical key, or the
    rejection of repeated items. *)
Lemma insert_simplex_key simplex s :
  let simplex' := match simplex with PInt z => PSeq [z] | _ => simplex end in
  match simplex' with
  | PSimplex x => ret (nodes x)
  | _ =>
      let simplex_ := frozenset (sorted (arg_items iter_nodes simplex')) in
      if negb (set_len simplex_ =? arg_len simplex') then raise ValueError
      else ret simplex_
  end s
  = if decide (distinct simplex) then (Return (key_of simplex), s)
    else (Raise ValueError, s).
Proof.
  destruct simplex as [z|l|K|x]; simpl.
  - rewrite frozenset_sorted. simpl. rewrite union_empty_r_L.
    unfold set_len, list_len. by rewrite size_singleton.
  - rewrite frozenset_sorted.
    pose proof (set_len_list_len_NoDup l) as H. unfold frozenset in H.
    case_decide as Hl.
    + apply H in Hl. apply Z.eqb_eq in Hl. by rewrite Hl.
    + destruct (set_len (list_to_set l) =? list_len l) eqn:E; [|done].
      apply Z.eqb_eq in E. by apply H in E.
  - rewrite frozenset_sorted. fold (frozenset (iter_nodes K)).
    rewrite (frozenset_iter_nodes iter_nodes iter_nodes_perm).
    by rewrite Z.eqb_refl.
  - done.
Qed.

Lemma arg_len_key_of simplex :
  distinct simplex →
  arg_len (match simplex with PInt z => PSeq [z] | _ => simplex end)
  = set_len (key_of simplex).
Proof.
  destruct simplex as [z|l|K|x]; simpl; intros Hd; try done.
  - unfold set_len. by rewrite size_singleton.
  - symmetry. by apply set_len_list_len_NoDup.
Qed.

(** X6.  [insert_simplex] called with a tuple or a list that repeats a
    node raises [ValueError] before it touches the view. *)
Theorem insert_simplex_rejects_duplicates l attr s :
  ¬ NoDup l →
  insert_simplex iter_nodes (PSeq l) attr s = (Raise ValueError, s).
Proof.
  intros Hl. unfold insert_simplex.
  apply bind_Raise.
  rewrite (insert_simplex_key (PSeq l)). by rewrite decide_False.
Qed.

(** X7.  Inserting a simplex whose key is already stored only merges
    the keyword attributes into the stored record, the new values
    winning: the call returns, no slot or key is added and the number
    of simplices of every dimension is unchanged.  When the argument is
    a [Simplex] object its own [properties] are not looked at on this
    path. *)
Theorem insert_simplex_existing simplex attr s n d r :
  distinct simplex →
  slot s (set_len (key_of simplex) - 1) = Some (n, d) →
  d !! key_of simplex = Some r →
  insert_simplex iter_nodes simplex attr s
  = (Return tt, set_slot s n (<[key_of simplex := attr ∪ r]> d)) ∧
  shape (set_slot s n (<[key_of simplex := attr ∪ r]> d)) = shape s.
Proof.
  intros Hdist Hsl Hr. split.
  - unfold insert_simplex.
    erewrite bind_Return; last first.
    { rewrite (insert_simplex_key simplex). by rewrite decide_True. }
    rewrite (bind_Return _ _ _ _ _ (_update_faces_dict_length_run _ s)).
    replace (list_len (faces_dict s) <? set_len (key_of simplex)) with false.
    2:{ symmetry. apply Z.ltb_ge. apply slot_Some in Hsl as [Hn _].
        unfold py_index in Hn. unfold list_len, set_len in *.
        repeat case_decide; try done; lia. }
    erewrite bind_Return; last first.
    { rewrite dict_contains_run, Hsl. reflexivity. }
    rewrite Hr, bool_decide_eq_true_2 by done.
    by rewrite update_record_run, Hsl, Hr.
  - apply slot_Some in Hsl as [_ Hd].
    apply shape_set_slot_present; [done|]. by rewrite Hr.
Qed.

Lemma update_record_Return i K a s s' :
  update_record i K a s = (Return tt, s') →
  ∃ n d r, slot s i = Some (n, d) ∧ d !! K = Some r ∧
           s' = set_slot s n (<[K := a ∪ r]> d) ∧
           slot s' i = Some (n, <[K := a ∪ r]> d).
Proof.
  rewrite update_record_run.
  destruct (slot s i) as [[n d]|] eqn:Hsl; [|done].
  destruct (d !! K) as [r|] eqn:Hr; [|done].
  intros [= <-]. exists n, d, r. repeat split; try done.
  by eapply slot_set_slot.
Qed.

Lemma getitem_stored simplex s n d r :
  match simplex with PInt _ => 0 ≤ max_dim s | _ => True end →
  slot s (set_len (key_of simplex) - 1) = Some (n, d) →
  d !! key_of simplex = Some r →
  SimplexView_getitem iter_nodes simplex s = (Return (Some r), s).
Proof.
  intros Hmax Hsl Hr.
  assert (Hc : dict_contains (set_len (key_of simplex) - 1) (key_of simplex) s
               = (Return true, s)).
  { rewrite dict_contains_run, Hsl, Hr. by rewrite bool_decide_eq_true_2. }
  assert (Hg : record_at (set_len (key_of simplex) - 1) (key_of simplex) s
               = (Return r, s)).
  { by rewrite record_at_run, Hsl, Hr. }
  destruct simplex as [z|l|K|x]; simpl in *.
  - assert (set_len {[z]} - 1 = 0) as Hz
      by (unfold set_len; rewrite size_singleton; lia).
    rewrite Hz in *.
    erewrite bind_Return; last first.
    { unfold SimplexView_contains. erewrite bind_Return by reflexivity.
      apply slot_Some in Hsl as [_ Hd%lookup_lt_Some].
      replace (list_len (faces_dict s) =? 0) with false
        by (symmetry; apply Z.eqb_neq; unfold list_len; lia).
      simpl. rewrite Hz.
      replace (max_dim s <? 0) with false by (symmetry; apply Z.ltb_ge; lia).
      unfold set_len. rewrite size_singleton. simpl.
      fold (frozenset (iter_nodes {[z]})).
      rewrite (frozenset_iter_nodes iter_nodes iter_nodes_perm). exact Hc. }
    cbv iota. by erewrite bind_Return by exact Hg.
  - unfold frozenset. erewrite bind_Return by exact Hc.
    cbv iota. by erewrite bind_Return by exact Hg.
  - fold (frozenset (iter_nodes K)).
    rewrite (frozenset_iter_nodes iter_nodes iter_nodes_perm).
    erewrite bind_Return by exact Hc.
    cbv iota. by erewrite bind_Return by exact Hg.
  - unfold Simplex_len. erewrite bind_Return by exact Hc.
    cbv iota. by erewrite bind_Return by exact Hg.
Qed.


Lemma remove_maximal_simplex_key simplex s :
  is_collection simplex →
  match simplex with
  | PInt _ => raise UnboundLocalError
  | PSimplex x => ret (nodes x)
  | _ => ret (frozenset (sorted (arg_items iter_nodes simplex)))
  end s = (Return (key_of simplex), s).
Proof.
  destruct simplex as [z|l|K|x]; simpl; intros Hc; try done.
  - by rewrite frozenset_sorted.
  - rewrite frozenset_sorted. fold (frozenset (iter_nodes K)).
    by rewrite (frozenset_iter_nodes iter_nodes iter_nodes_perm).
Qed.

(** X9.  The calls that [remove_maximal_simplex] rejects leave the view
    as it was: a bare node raises [UnboundLocalError] (the key is never
    bound); a collection whose slot does not exist raises [IndexError];
    one whose key is not stored raises [KeyError]; one whose record is
    not flagged maximal raises [ValueError]. *)
Theorem remove_maximal_simplex_rejects simplex s :
  (∀ z, simplex = PInt z →
     remove_maximal_simplex iter_nodes iter_faces simplex s
     = (Raise UnboundLocalError, s)) ∧
  (is_collection simplex →
   slot s (set_len (key_of simplex) - 1) = None →
     remove_maximal_simplex iter_nodes iter_faces simplex s
     = (Raise IndexError, s)) ∧
  (∀ n d, is_collection simplex →
     slot s (set_len (key_of simplex) - 1) = Some (n, d) →
     d !! key_of simplex = None →
     remove_maximal_simplex iter_nodes iter_faces simplex s
     = (Raise KeyError, s)) ∧
  (∀ n d r v, is_collection simplex →
     slot s (set_len (key_of simplex) - 1) = Some (n, d) →
     d !! key_of simplex = Some r →
     r !! "is_maximal" = Some v → truthy v = false →
     remove_maximal_simplex iter_nodes iter_faces simplex s
     = (Raise ValueError, s)).
Proof.
  unfold remove_maximal_simplex. repeat split.
  - by intros z ->.
  - intros Hc Hsl.
    erewrite bind_Return by by apply remove_maximal_simplex_key.
    apply bind_Raise. by rewrite dict_contains_run, Hsl.
  - intros n d Hc Hsl Hr.
    erewrite bind_Return by by apply remove_maximal_simplex_key.
    erewrite bind_Return; last first.
    { rewrite dict_contains_run, Hsl. reflexivity. }
    rewrite Hr, bool_decide_eq_false_2; [done|]. by intros [].
  - intros n d r v Hc Hsl Hr Hv Hfalse.
    erewrite bind_Return by by apply remove_maximal_simplex_key.
    erewrite bind_Return; last first.
    { rewrite dict_contains_run, Hsl. reflexivity. }
    rewrite Hr, bool_decide_eq_true_2 by done.
    erewrite bind_Return; last first.
    { eapply getitem_stored; [|done..]. by destruct simplex. }
    cbv beta iota. rewrite Hv. erewrite bind_Return by reflexivity.
    by rewrite Hfalse.
Qed.

End Methods.

(** ** Insertion never forgets a simplex *)

Lemma keys_grow_refl s : keys_grow s s.
Proof. by split. Qed.

Lemma rec_at_set_slot s n d d' m K :
  faces_dict s !! n = Some d →
  rec_at (set_slot s n d') m K
  = if decide (m = n) then d' !! K else rec_at s m K.
Proof.
  intros Hd. unfold rec_at.
  rewrite lookup_set_slot by by eapply lookup_lt_Some.
  by case_decide.
Qed.

Lemma keys_grow_set_slot s0 s n d d' :
  keys_grow s0 s → faces_dict s !! n = Some d →
  (∀ K, is_Some (d !! K) → is_Some (d' !! K)) →
  keys_grow s0 (set_slot s n d').
Proof.
  intros [Hlen Hkeys] Hd Hd'. split.
  - simpl. by rewrite length_insert.
  - intros m K HK. apply Hkeys in HK.
    rewrite (rec_at_set_slot _ _ d) by done. case_decide as Hm; [|done].
    subst m. apply Hd'. unfold rec_at in HK. by rewrite Hd in HK.
Qed.

Lemma is_Some_lookup_insert_keep {V} (d : gmap (gset Z) V) key v K :
  is_Some (d !! K) → is_Some (<[key := v]> d !! K).
Proof.
  intros HK. destruct (decide (K = key)) as [->|Hne].
  - by rewrite lookup_insert_eq.
  - by rewrite lookup_insert_ne.
Qed.

Lemma preserves_keys_grow_store_record s0 i key r :
  preserves (keys_grow s0) (store_record i key r).
Proof.
  intros s Hs. rewrite store_record_run.
  destruct (slot s i) as [[n d]|] eqn:Hsl; [|done]. simpl.
  apply slot_Some in Hsl as [_ Hd].
  eapply keys_grow_set_slot; [done..|].
  intros K. apply is_Some_lookup_insert_keep.
Qed.

Lemma preserves_keys_grow_store_field s0 i key field v :
  preserves (keys_grow s0) (store_field i key field v).
Proof.
  apply preserves_bind.
  - apply preserves_readonly, readonly_record_at.
  - intros r. apply preserves_keys_grow_store_record.
Qed.

Lemma preserves_keys_grow_update_record s0 i key attr :
  preserves (keys_grow s0) (update_record i key attr).
Proof.
  apply preserves_bind.
  - apply preserves_readonly, readonly_record_at.
  - intros r. apply preserves_keys_grow_store_record.
Qed.

Lemma preserves_keys_grow_membership_add s0 i key x :
  preserves (keys_grow s0) (membership_add i key x).
Proof.
  apply preserves_bind.
  - apply preserves_readonly, readonly_membership_at.
  - intros m. apply preserves_keys_grow_store_field.
Qed.

Lemma preserves_keys_grow_set_max_dim s0 v :
  preserves (keys_grow s0) (set_max_dim v).
Proof. by intros s Hs. Qed.

Lemma preserves_keys_grow_length s0 K :
  preserves (keys_grow s0) (_update_faces_dict_length K).
Proof.
  intros s [Hlen Hkeys]. rewrite _update_faces_dict_length_run. simpl.
  case_match; [|done]. split; simpl.
  - rewrite length_app. lia.
  - intros n K' HK. apply Hkeys in HK. unfold rec_at in *. simpl.
    destruct (faces_dict s !! n) as [d|] eqn:Hd; [|by destruct HK].
    by rewrite (lookup_app_l_Some _ _ _ _ Hd).
Qed.

#[export] Hint Resolve preserves_keys_grow_store_record
  preserves_keys_grow_store_field preserves_keys_grow_update_record
  preserves_keys_grow_membership_add preserves_keys_grow_set_max_dim
  preserves_keys_grow_length : preserves.

Lemma preserves_keys_grow_entry s0 face simplex_ mf attr :
  preserves (keys_grow s0) (_update_faces_dict_entry face simplex_ mf attr).
Proof. unfold _update_faces_dict_entry. repeat preserves_step. Qed.

Lemma keys_grow_trans s1 s2 s3 :
  keys_grow s1 s2 → keys_grow s2 s3 → keys_grow s1 s3.
Proof.
  intros [Hl1 Hk1] [Hl2 Hk2]. split; [lia|]. intros n K HK. by apply Hk2, Hk1.
Qed.

Section Growth.
Variable iter_nodes : gset Z → list Z.
Hypothesis iter_nodes_perm : ∀ s, iter_nodes s ≡ₚ elements s.

Lemma preserves_keys_grow_insert s0 simplex attr :
  preserves (keys_grow s0) (insert_simplex iter_nodes simplex attr).
Proof.
  unfold insert_simplex.
  apply preserves_bind.
  { destruct simplex; repeat preserves_step. }
  intros K. repeat preserves_step.
  - apply preserves_foldM. intros. apply preserves_keys_grow_entry.
  - destruct simplex; repeat preserves_step.
Qed.

(** X10.  [insert_simplex] never forgets: whether it returns or raises,
    [faces_dict] is at least as long as before and every key stored
    before the call is still stored, at the same index, after it. *)
Theorem insert_simplex_keys_grow simplex attr s :
  keys_grow s (snd (insert_simplex iter_nodes simplex attr s)).
Proof. apply preserves_keys_grow_insert, keys_grow_refl. Qed.

End Growth.

Section Bulk.
Variable iter_nodes : gset Z → list Z.
Hypothesis iter_nodes_perm : ∀ s, iter_nodes s ≡ₚ elements s.

Lemma insert_simplex_Return simplex attr s s' :
  insert_simplex iter_nodes simplex attr s = (Return tt, s') →
  distinct simplex ∧
  ∃ n d r, slot s' (set_len (key_of simplex) - 1) = Some (n, d) ∧
           d !! key_of simplex = Some r.
Proof.
  intros E. unfold insert_simplex in E.
  apply bind_Return_inv in E as (K & s1 & HA & E).
  rewrite (insert_simplex_key iter_nodes iter_nodes_perm simplex) in HA.
  case_decide; [|done]. injection HA as <- <-. split; [done|].
  apply bind_Return_inv in E as ([] & s2 & _ & E).
  apply bind_Return_inv in E as (present & s3 & _ & E).
  assert (∃ a s4, update_record (set_len (key_of simplex) - 1) (key_of simplex) a s4
                  = (Return tt, s')) as (a & s4 & Hupd).
  { destruct present; [by eauto|].
    apply bind_Return_inv in E as (? & s5 & _ & E).
    apply bind_Return_inv in E as (? & s6 & _ & E).
    apply bind_Return_inv in E as (? & s7 & _ & E).
    destruct simplex; simpl in E; eauto. }
  apply update_record_Return in Hupd as (n & d & r & _ & _ & _ & Hsl).
  exists n, (<[key_of simplex := a ∪ r]> d), (a ∪ r).
  split; [done|]. by rewrite lookup_insert_eq.
Qed.



End Bulk.

(** ** Counting and listing *)

Section Listing.
Variable iter_nodes : gset Z → list Z.
Hypothesis iter_nodes_perm : ∀ s, iter_nodes s ≡ₚ elements s.
Variable keys : gmap (gset Z) (gmap string pyval) → list (gset Z).
Hypothesis keys_perm : ∀ d, keys d ≡ₚ (map_to_list d).*1.

Lemma SimplexView_iter_concat s :
  SimplexView_iter keys s = mjoin (keys <$> faces_dict s).
Proof.
  unfold SimplexView_iter.
  assert (∀ l acc, foldl (λ a d, (a ++ keys d)%list) acc l
                   = (acc ++ mjoin (keys <$> l))%list) as H.
  { induction l as [|d l IH]; intros acc; simpl.
    - by rewrite app_nil_r.
    - by rewrite IH, app_assoc. }
  apply (H _ []).
Qed.

Lemma elem_of_keys d K : K ∈ keys d ↔ is_Some (d !! K).
Proof.
  rewrite keys_perm, list_elem_of_fmap. split.
  - intros ([K' r] & -> & H%elem_of_map_to_list). by exists r.
  - intros [r Hr]. exists (K, r). split; [done|]. by apply elem_of_map_to_list.
Qed.

Lemma length_keys d : length (keys d) = size d.
Proof. by rewrite keys_perm, length_fmap, length_map_to_list. Qed.

Lemma elem_of_SimplexView_iter s K :
  K ∈ SimplexView_iter keys s
  ↔ ∃ n d, faces_dict s !! n = Some d ∧ is_Some (d !! K).
Proof.
  rewrite SimplexView_iter_concat, list_elem_of_join. split.
  - intros (l & HK & Hl). apply list_elem_of_fmap in Hl as (d & -> & Hd).
    apply list_elem_of_lookup in Hd as [n Hn]. exists n, d.
    split; [done|]. by apply elem_of_keys.
  - intros (n & d & Hd & HK). exists (keys d). split; [by apply elem_of_keys|].
    apply list_elem_of_fmap. exists d. split; [done|].
    by eapply list_elem_of_lookup_2.
Qed.

(** X12.  [len(view)], the sum of [shape], is the number of simplices
    that iterating over the view produces. *)
Theorem SimplexView_len_iter s :
  SimplexView_len s = list_len (SimplexView_iter keys s).
Proof.
  unfold SimplexView_len, SimplexView_shape. rewrite SimplexView_iter_concat.
  unfold list_len.
  assert (foldr Z.add 0 (map (λ d, Z.of_nat (size d)) (faces_dict s))
          = Z.of_nat (length (mjoin (keys <$> faces_dict s)))) as H.
  { induction (faces_dict s) as [|d l IH]; [done|].
    simpl. rewrite IH, length_app, length_keys. rewrite Nat2Z.inj_add. done. }
  destruct (Z.of_nat (length (faces_dict s)) =? 0) eqn:E; [|done].
  apply Z.eqb_eq in E. by destruct (faces_dict s).
Qed.

(** X13.  On a view that satisfies the dimension invariant,
    [__contains__] never raises and answers [True] exactly for the
    keys that iterating over the view produces, for an argument given
    as a node, a tuple or list without repetition, a frozenset or a
    [Simplex]. *)
Theorem SimplexView_contains_iter simplex s :
  dims_ok s → distinct simplex →
  SimplexView_contains iter_nodes simplex s
  = (Return (bool_decide (key_of simplex ∈ SimplexView_iter keys s)), s).
Proof.
  intros [Hmax Hkeys] Hdist.
  assert (Hlen : arg_len simplex = set_len (key_of simplex)).
  { destruct simplex; simpl in *; try done.
    - unfold set_len. by rewrite size_singleton.
    - symmetry. by apply set_len_list_len_NoDup. }
  assert (Hfs : frozenset (arg_items iter_nodes simplex) = key_of simplex).
  { destruct simplex; simpl; try done.
    - unfold frozenset. simpl. apply union_empty_r_L.
    - by rewrite (frozenset_iter_nodes iter_nodes iter_nodes_perm).
    - by rewrite (frozenset_iter_nodes iter_nodes iter_nodes_perm). }
  assert (Hno : ∀ b, (key_of simplex ∈ SimplexView_iter keys s → False) →
                     b = false →
                     (Return b, s)
                     = (Return (bool_decide (key_of simplex ∈ SimplexView_iter keys s)), s)).
  { intros b Hn ->. by rewrite bool_decide_eq_false_2. }
  assert (Hat : ∀ n, set_len (key_of simplex) - 1 = Z.of_nat n →
                     (n < length (faces_dict s))%nat →
                     dict_contains (Z.of_nat n) (key_of simplex) s
                     = (Return (bool_decide (key_of simplex ∈ SimplexView_iter keys s)), s)).
  { intros n Hn Hlt. apply lookup_lt_is_Some in Hlt as [d Hd].
    rewrite dict_contains_run, (slot_lookup _ _ _ Hd). do 2 f_equal.
    apply bool_decide_ext. rewrite elem_of_SimplexView_iter. split.
    - intros HK. by exists n, d.
    - intros (m & e & He & HK). pose proof (Hkeys _ _ _ He HK) as Hsz.
      assert (m = n) as -> by (unfold set_len in Hn; lia). congruence. }
  unfold SimplexView_contains. erewrite bind_Return by reflexivity.
  destruct (list_len (faces_dict s) =? 0) eqn:E0.
  { apply Hno; [|done]. intros (n & d & Hd & _)%elem_of_SimplexView_iter.
    apply Z.eqb_eq in E0. apply lookup_lt_Some in Hd. unfold list_len in E0. lia. }
  apply Z.eqb_neq in E0. unfold list_len in *.
  assert (Hbody :
    (if max_dim s <? arg_len simplex - 1 then ret false
     else if arg_len simplex =? 0 then ret false
     else dict_contains (arg_len simplex - 1)
            (frozenset (arg_items iter_nodes simplex))) s
    = (Return (bool_decide (key_of simplex ∈ SimplexView_iter keys s)), s)).
  { rewrite Hfs, Hlen.
    destruct (max_dim s <? set_len (key_of simplex) - 1) eqn:E1.
    { apply Z.ltb_lt in E1. apply Hno; [|done].
      intros (n & d & Hd & HK)%elem_of_SimplexView_iter.
      pose proof (Hkeys _ _ _ Hd HK). apply lookup_lt_Some in Hd.
      unfold set_len in E1. lia. }
    apply Z.ltb_ge in E1.
    destruct (set_len (key_of simplex) =? 0) eqn:E2.
    { apply Z.eqb_eq in E2. apply Hno; [|done].
      intros (n & d & Hd & HK)%elem_of_SimplexView_iter.
      pose proof (Hkeys _ _ _ Hd HK). unfold set_len in E2. lia. }
    apply Z.eqb_neq in E2. unfold set_len in *.
    replace (Z.of_nat (size (key_of simplex)) - 1)
      with (Z.of_nat (size (key_of simplex) - 1)) by lia.
    apply Hat; lia. }
  destruct simplex as [z|l|K|x]; try exact Hbody.
  simpl. apply (Hat 0%nat); [|lia].
  simpl. unfold set_len. rewrite size_singleton. lia.
Qed.

End Listing.

(** ** Insertion keeps invariant I2 *)

Lemma I2_record_new_maximal : I2_record new_maximal.
Proof. exists true, ∅. by repeat split. Qed.

Lemma I2_record_new_face x : I2_record (new_face x).
Proof.
  exists false, {[x]}. repeat split; [done|].
  intros H. exfalso. revert H. apply non_empty_singleton_L.
Qed.

Lemma I2_record_demoted r x m :
  I2_record (<["membership" := VSet ({[x]} ∪ m)]>
               (<["is_maximal" := VBool false]> r)).
Proof.
  exists false, ({[x]} ∪ m). unfold is_maximal, membership.
  rewrite lookup_insert_ne by done. rewrite !lookup_insert_eq.
  repeat split; [done|]. intros H. exfalso.
  assert (x ∈ ({[x]} ∪ m)) as Hx by set_solver. rewrite H in Hx.
  by apply not_elem_of_empty in Hx.
Qed.

Lemma I2_record_update attr r :
  unreserved attr → I2_record r → I2_record (attr ∪ r).
Proof.
  intros [Ha Hb] (b & m & Hb' & Hm & Hiff). exists b, m.
  unfold is_maximal, membership in *.
  rewrite (lookup_union_r attr r "is_maximal") by done.
  rewrite (lookup_union_r attr r "membership") by done. by split.
Qed.

Lemma I2_view_set_record s n d K r :
  I2_view s → faces_dict s !! n = Some d → I2_record r →
  I2_view (set_slot s n (<[K := r]> d)).
Proof.
  intros Hs Hd Hr m K' r' Hr'.
  rewrite (rec_at_set_slot _ _ d) in Hr' by done.
  case_decide as Hm; [|by eapply Hs]. subst m.
  apply lookup_insert_Some in Hr' as [[_ <-]|[_ Hr']]; [done|].
  eapply (Hs n). unfold rec_at. rewrite Hd. exact Hr'.
Qed.

Lemma set_slot_set_slot s n d1 d2 :
  set_slot (set_slot s n d1) n d2 = set_slot s n d2.
Proof. unfold set_slot. simpl. by rewrite list_insert_insert_eq. Qed.

Lemma store_field_at s i n d key r field v :
  slot s i = Some (n, d) → d !! key = Some r →
  store_field i key field v s
  = (Return tt, set_slot s n (<[key := <[field := v]> r]> d)).
Proof. intros Hsl Hr. by rewrite store_field_run, Hsl, Hr. Qed.

Lemma membership_at_at s i n d key r m :
  slot s i = Some (n, d) → d !! key = Some r →
  r !! "membership" = Some (VSet m) →
  membership_at i key s = (Return m, s).
Proof.
  intros Hsl Hr Hm. unfold membership_at.
  by rewrite bind_run, field_at_run, Hsl, Hr, Hm.
Qed.

Lemma membership_add_at s i n d key r m x :
  slot s i = Some (n, d) → d !! key = Some r →
  r !! "membership" = Some (VSet m) →
  membership_add i key x s
  = (Return tt,
     set_slot s n (<[key := <["membership" := VSet ({[x]} ∪ m)]> r]> d)).
Proof.
  intros Hsl Hr Hm. unfold membership_add.
  erewrite bind_Return by by eapply membership_at_at.
  by eapply store_field_at.
Qed.

(** The flag of a stored face is cleared and the new simplex joins
    its membership. *)
Lemma demote_run {A} s i n d key r m x (b : A) :
  slot s i = Some (n, d) → d !! key = Some r →
  r !! "membership" = Some (VSet m) →
  (store_field i key "is_maximal" (VBool false) >>
   membership_add i key x >> ret b) s
  = (Return b,
     set_slot s n
       (<[key := <["membership" := VSet ({[x]} ∪ m)]>
                   (<["is_maximal" := VBool false]> r)]> d)).
Proof.
  intros Hsl Hr Hm.
  erewrite bind_Return by by eapply store_field_at.
  erewrite bind_Return; last first.
  { eapply membership_add_at.
    - by eapply slot_set_slot.
    - apply lookup_insert_eq.
    - by rewrite lookup_insert_ne. }
  unfold ret. by rewrite set_slot_set_slot, insert_insert_eq.
Qed.

Lemma preserves_I2_update_record i key attr :
  unreserved attr → preserves I2_view (update_record i key attr).
Proof.
  intros Hattr s Hs. rewrite update_record_run.
  destruct (slot s i) as [[n d]|] eqn:Hsl; [|done].
  destruct (d !! key) as [r|] eqn:Hr; [|done]. simpl.
  apply slot_Some in Hsl as [_ Hd].
  apply I2_view_set_record; [done..|].
  apply I2_record_update; [done|].
  eapply (Hs n). unfold rec_at. rewrite Hd. exact Hr.
Qed.

Lemma preserves_I2_entry face simplex_ mf attr :
  unreserved attr →
  preserves I2_view (_update_faces_dict_entry face simplex_ mf attr).
Proof.
  intros Hattr s Hs. unfold _update_faces_dict_entry.
  set (i := list_len face - 1). set (key := frozenset (sorted face)).
  rewrite bind_run, dict_contains_run.
  destruct (slot s i) as [[n d]|] eqn:Hsl; [|done].
  pose proof Hsl as [_ Hd]%slot_Some.
  destruct (d !! key) as [r|] eqn:Hr.
  - rewrite bool_decide_eq_true_2 by done. cbn [negb].
    destruct (list_len face =? set_len simplex_) eqn:E; cbn [negb].
    { exact (preserves_bind I2_view _ _
               (preserves_I2_update_record _ _ _ Hattr)
               (λ _, preserves_ret _ _) s Hs). }
    destruct (Hs n key r) as (b & m & Hb & Hm & _).
    { unfold rec_at. by rewrite Hd. }
    unfold is_maximal in Hb. destruct (r !! "is_maximal") as [v|] eqn:Hv; [|done].
    unfold membership in Hm.
    destruct (r !! "membership") as [[| |m']|] eqn:Hm'; try done.
    erewrite bind_Return by by rewrite field_at_run, Hsl, Hr, Hv.
    destruct (truthy v).
    + erewrite demote_run by done. simpl.
      apply I2_view_set_record; [done..|]. apply I2_record_demoted.
    + erewrite bind_Return by by eapply membership_at_at.
      erewrite bind_Return by by eapply store_field_at.
      erewrite demote_run; last first.
      { by rewrite lookup_insert_eq. }
      { apply lookup_insert_eq. }
      { by eapply slot_set_slot. }
      simpl. rewrite set_slot_set_slot, insert_insert_eq.
      apply I2_view_set_record; [done..|]. apply I2_record_demoted.
  - rewrite bool_decide_eq_false_2 by (by intros []). cbn [negb].
    destruct (list_len face =? set_len simplex_).
    + rewrite bind_run, store_record_run, Hsl. simpl.
      apply I2_view_set_record; [done..|]. apply I2_record_new_maximal.
    + rewrite bind_run, store_record_run, Hsl. simpl.
      apply I2_view_set_record; [done..|]. apply I2_record_new_face.
Qed.

Lemma preserves_I2_length K : preserves I2_view (_update_faces_dict_length K).
Proof.
  intros s Hs. rewrite _update_faces_dict_length_run. simpl.
  case_match; [|done]. intros n K' r Hr. unfold rec_at in Hr. simpl in Hr.
  destruct ((faces_dict s ++ _)%list !! n) as [d|] eqn:Hd; [|done]. simpl in Hr.
  apply lookup_app_Some in Hd as [Hd|[_ Hd]].
  - eapply (Hs n). unfold rec_at. rewrite Hd. exact Hr.
  - apply lookup_replicate in Hd as [-> _]. by rewrite lookup_empty in Hr.
Qed.

Lemma preserves_I2_set_max_dim v : preserves I2_view (set_max_dim v).
Proof. by intros s Hs. Qed.

Lemma I2_view_empty_view : I2_view empty_view.
Proof. intros n K r Hr. unfold rec_at in Hr. cbn in Hr. done. Qed.

Section MaximalFlag.
Variable iter_nodes : gset Z → list Z.

Lemma preserves_I2_insert simplex attr :
  plain_arg simplex → unreserved attr →
  preserves I2_view (insert_simplex iter_nodes simplex attr).
Proof.
  intros Hplain Hattr. unfold insert_simplex.
  apply preserves_bind.
  { destruct simplex; repeat preserves_step. }
  intros K. apply preserves_bind; [apply preserves_I2_length|]. intros _.
  apply preserves_bind; [apply preserves_readonly, readonly_dict_contains|].
  intros [|]; [by apply preserves_I2_update_record|].
  apply preserves_bind; [apply preserves_readonly, readonly_get_state|].
  intros s0. apply preserves_bind.
  { case_match; [apply preserves_I2_set_max_dim|apply preserves_ret]. }
  intros _. apply preserves_bind.
  { apply preserves_foldM. intros. by apply preserves_I2_entry. }
  intros _. destruct simplex; by apply preserves_I2_update_record.
Qed.

(** X14.  A view built by [insert_simplex] alone, with attributes that
    leave the two bookkeeping entries alone, satisfies invariant I2:
    every stored record has a flag and a membership set, and the flag
    is true exactly when the membership set is empty.  This holds
    after failed insertions too. *)
Theorem built_I2 s n K r :
  built iter_nodes s → rec_at s n K = Some r → I2_record r.
Proof.
  intros Hs. revert n K r.
  induction Hs as [|s simplex attr _ IH Hplain Hattr].
  - apply I2_view_empty_view.
  - by apply preserves_I2_insert.
Qed.

End MaximalFlag.

(** ** Removal deletes one key *)

Lemma same_keys_refl s : same_keys s s.
Proof. by intros n K. Qed.

Lemma same_keys_set_slot s0 s n d d' :
  same_keys s0 s → faces_dict s !! n = Some d →
  (∀ K, is_Some (d' !! K) ↔ is_Some (d !! K)) →
  same_keys s0 (set_slot s n d').
Proof.
  intros Hs Hd Hd' m K. rewrite <- (Hs m K).
  rewrite (rec_at_set_slot _ _ d) by done. case_decide as Hm; [|done].
  subst m. unfold rec_at. rewrite Hd. apply Hd'.
Qed.

Lemma is_Some_lookup_insert_same {V} (d : gmap (gset Z) V) key v K :
  is_Some (d !! key) → is_Some (<[key := v]> d !! K) ↔ is_Some (d !! K).
Proof.
  intros Hkey. split.
  - by apply is_Some_lookup_insert_present.
  - apply is_Some_lookup_insert_keep.
Qed.

Lemma preserves_same_keys_store_field s0 i key field v :
  preserves (same_keys s0) (store_field i key field v).
Proof.
  intros s Hs. rewrite store_field_run.
  destruct (slot s i) as [[n d]|] eqn:Hsl; [|done].
  destruct (d !! key) as [r|] eqn:Hr; [|done]. simpl.
  apply slot_Some in Hsl as [_ Hd].
  eapply same_keys_set_slot; [done..|].
  intros K. apply is_Some_lookup_insert_same. by rewrite Hr.
Qed.

Lemma preserves_same_keys_membership_remove s0 i key x :
  preserves (same_keys s0) (membership_remove i key x).
Proof.
  apply preserves_bind.
  - apply preserves_readonly, readonly_membership_at.
  - intros m. case_bool_decide.
    + apply preserves_same_keys_store_field.
    + apply preserves_raise.
Qed.

#[export] Hint Resolve preserves_same_keys_store_field
  preserves_same_keys_membership_remove : preserves.

Lemma preserves_same_keys_repair_face s0 simplex simplex_ f :
  preserves (same_keys s0) (repair_face simplex simplex_ f).
Proof. unfold repair_face. repeat preserves_step. Qed.

Lemma drop_top_keys i s s' :
  dims_ok s →
  (let! n := dict_len i in
   let! s := get_state in
   if (n =? 0) && (i =? max_dim s) then
     del_dict i >>
     let! s := get_state in
     set_max_dim (list_len (faces_dict s) - 1)
   else ret tt) s = (Return tt, s') →
  same_keys s s'.
Proof.
  intros [Hmax Hkeys] E. rewrite bind_run, dict_len_run in E.
  destruct (slot s i) as [[n d]|] eqn:Hsl; [|done].
  erewrite bind_Return in E by reflexivity.
  destruct ((Z.of_nat (size d) =? 0) && (i =? max_dim s)) eqn:Hc.
  2:{ injection E as <-. apply same_keys_refl. }
  apply andb_true_iff in Hc as [Hsz%Z.eqb_eq Hi%Z.eqb_eq].
  rewrite bind_run, del_dict_run, Hsl in E. simpl in E. injection E as <-.
  apply slot_Some in Hsl as [Hn Hd].
  apply lookup_lt_Some in Hd as Hlt. unfold list_len in Hmax.
  rewrite py_index_nonneg in Hn by lia. case_decide; [|done].
  injection Hn as <-.
  assert (d = ∅) as -> by (apply map_size_empty_iff; lia).
  intros m K. unfold rec_at. simpl.
  destruct (decide (m < Z.to_nat i)%nat).
  - by rewrite list_lookup_delete_lt.
  - rewrite list_lookup_delete_ge by lia.
    rewrite (lookup_ge_None_2 _ (S m)) by lia.
    destruct (decide (m = Z.to_nat i)) as [->|].
    + rewrite Hd. simpl. by rewrite lookup_empty.
    + by rewrite (lookup_ge_None_2 _ m) by lia.
Qed.

Section Removal.
Variable iter_nodes : gset Z → list Z.
Variable iter_faces : list Simplex → list Simplex.
Hypothesis iter_nodes_perm : ∀ s, iter_nodes s ≡ₚ elements s.

(** X15.  A call of [remove_maximal_simplex] that returns deletes the
    key of its argument and no other: the faces of the removed simplex
    and every other simplex stay in the view, at their index. *)
Theorem remove_maximal_simplex_keys simplex s s' :
  dims_ok s →
  remove_maximal_simplex iter_nodes iter_faces simplex s = (Return tt, s') →
  ∀ n K, is_Some (rec_at s' n K)
         ↔ is_Some (rec_at s n K) ∧ K ≠ key_of simplex.
Proof.
  intros Hs E. unfold remove_maximal_simplex in E.
  apply bind_Return_inv in E as (K0 & s0 & HA & E).
  assert (is_collection simplex) as Hcoll by (by destruct simplex).
  rewrite (remove_maximal_simplex_key iter_nodes iter_nodes_perm) in HA by done.
  injection HA as <- <-.
  apply bind_Return_inv in E as (present & s1 & Hc & E).
  rewrite dict_contains_run in Hc.
  destruct (slot s (set_len (key_of simplex) - 1)) as [[n0 d]|] eqn:Hsl; [|done].
  injection Hc as <- <-. case_bool_decide as HK; [|done].
  apply bind_Return_inv in E as (r & s2 & Hg & E).
  pose proof (readonly_SimplexView_getitem iter_nodes simplex s) as Hro.
  rewrite Hg in Hro. simpl in Hro. subst s2.
  apply bind_Return_inv in E as (flag & s3 & Hf & E).
  assert (s3 = s) as ->.
  { destruct r as [r|]; [|done]. destruct (r !! "is_maximal"); [|done].
    by injection Hf. }
  destruct (truthy flag); [|done].
  apply bind_Return_inv in E as ([] & s4 & Hdel & E).
  rewrite del_record_run, Hsl in Hdel. destruct HK as [r0 Hr0].
  rewrite Hr0 in Hdel. injection Hdel as <-.
  apply bind_Return_inv in E as (whole & s5 & Hw & E).
  pose proof (readonly_lift_outcome (Simplex_init (iter_nodes (key_of simplex)) None true ∅)
                (set_slot s n0 (delete (key_of simplex) d))) as Hro.
  rewrite Hw in Hro. simpl in Hro. subst s5.
  apply bind_Return_inv in E as (faces & s6 & Hfaces & E).
  pose proof (readonly_lift_outcome (Simplex_faces iter_nodes whole)
                (set_slot s n0 (delete (key_of simplex) d))) as Hro.
  rewrite Hfaces in Hro. simpl in Hro. subst s6.
  apply bind_Return_inv in E as ([] & s7 & Hloop & E).
  set (s4 := set_slot s n0 (delete (key_of simplex) d)) in *.
  pose proof Hsl as [_ Hd]%slot_Some.
  assert (dims_ok s4) as Hs4.
  { eapply dims_ok_set_slot; [done..|].
    intros K [x HKx]. left. apply lookup_delete_Some in HKx as [_ HKx]. by eexists. }
  assert (dims_ok s7 ∧ same_keys s4 s7) as [Hs7 Hsame].
  { pose proof (preserves_forM_ dims_ok (repair_face simplex (key_of simplex))
                  (iter_faces faces)
                  (λ f _, preserves_dims_ok_repair_face simplex _ f) s4 Hs4) as H1.
    pose proof (preserves_forM_ (same_keys s4) (repair_face simplex (key_of simplex))
                  (iter_faces faces)
                  (λ f _, preserves_same_keys_repair_face s4 simplex _ f) s4
                  (same_keys_refl s4)) as H2.
    rewrite Hloop in H1, H2. by split. }
  pose proof (drop_top_keys _ _ _ Hs7 E) as Hlast.
  intros n K. rewrite (Hlast n K), (Hsame n K). subst s4.
  rewrite (rec_at_set_slot _ _ d) by done.
  destruct Hs as [_ Hkeys].
  case_decide as Hn.
  - subst n. unfold rec_at. rewrite Hd. simpl. split.
    + intros [x Hx]. apply lookup_delete_Some in Hx as [Hne Hx]. by split; [eexists|].
    + intros [[x Hx] Hne]. exists x. by apply lookup_delete_Some.
  - split; [|by intros [? _]]. intros HKn. split; [done|]. intros ->.
    unfold rec_at in HKn.
    destruct (faces_dict s !! n) as [e|] eqn:He; [|by destruct HKn].
    simpl in HKn. pose proof (Hkeys _ _ _ He HKn) as H1.
    pose proof (Hkeys _ _ _ Hd (ltac:(by eexists) : is_Some (d !! key_of simplex))) as H2.
    lia.
Qed.

End Removal.

(** ** The theorems at work on small views *)

(** [edge_view] is the view that [insert_simplex((1, 2))] builds. *)
Lemma edge_view_built :
  insert (PSeq [1; 2]) ∅ empty_view = (Return tt, edge_view).
Proof. vm_compute. exact eq_refl. Qed.

Lemma dims_ok_reachable_witness :
  dims_ok (exec (remove (PSeq [1; 2; 3]))
             (exec (insert (PSeq [1; 2; 3]) ∅) empty_view)).
Proof.
  apply (dims_ok_reachable ascending as_created ascending_perm).
  apply reachable_remove, reachable_insert, reachable_empty.
Defined.

Lemma insert_simplex_rejects_duplicates_witness :
  insert (PSeq [1; 2; 1]) ∅ empty_view = (Raise ValueError, empty_view).
Proof.
  apply (insert_simplex_rejects_duplicates ascending ascending_perm).
  intros H. apply NoDup_cons in H as [H _]. apply H. right. left.
Defined.

Lemma insert_simplex_existing_witness :
  insert_simplex ascending (PFrozenset {[1; 2]}) {["weight" := VInt 5]} edge_view
  = (Return tt,
     set_slot edge_view 1
       (<[key_of (PFrozenset {[1; 2]}) := {["weight" := VInt 5]} ∪ new_maximal]>
          {[ {[1; 2]} := new_maximal ]})) ∧
  shape (set_slot edge_view 1
           (<[key_of (PFrozenset {[1; 2]}) := {["weight" := VInt 5]} ∪ new_maximal]>
              {[ {[1; 2]} := new_maximal ]}))
  = shape edge_view.
Proof.
  assert (slot edge_view (set_len (key_of (PFrozenset {[1; 2]})) - 1)
          = Some (1%nat, {[ {[1; 2]} := new_maximal ]})) as Hsl.
  { replace (set_len (key_of (PFrozenset {[1; 2]})) - 1) with 1
      by (vm_compute; reflexivity).
    reflexivity. }
  exact (insert_simplex_existing ascending ascending_perm
           (PFrozenset {[1; 2]}) {["weight" := VInt 5]} edge_view 1%nat
           {[ {[1; 2]} := new_maximal ]} new_maximal I Hsl
           (lookup_singleton_eq _ _)).
Defined.


Lemma remove_maximal_simplex_rejects_witness :
  remove_maximal_simplex ascending as_created (PInt 1) edge_view
  = (Raise UnboundLocalError, edge_view) ∧
  remove_maximal_simplex ascending as_created (PFrozenset {[1; 2; 3]}) edge_view
  = (Raise IndexError, edge_view) ∧
  remove_maximal_simplex ascending as_created (PFrozenset {[1; 3]}) edge_view
  = (Raise KeyError, edge_view) ∧
  remove_maximal_simplex ascending as_created (PFrozenset {[1]}) edge_view
  = (Raise ValueError, edge_view).
Proof.
  split; [|split; [|split]].
  - destruct (remove_maximal_simplex_rejects ascending as_created ascending_perm
                (PInt 1) edge_view) as (H & _).
    exact (H 1 eq_refl).
  - destruct (remove_maximal_simplex_rejects ascending as_created ascending_perm
                (PFrozenset {[1; 2; 3]}) edge_view) as (_ & H & _).
    apply H; [exact I|].
    replace (set_len (key_of (PFrozenset {[1; 2; 3]})) - 1) with 2
      by (vm_compute; reflexivity).
    reflexivity.
  - destruct (remove_maximal_simplex_rejects ascending as_created ascending_perm
                (PFrozenset {[1; 3]}) edge_view) as (_ & _ & H & _).
    apply (H 1%nat {[ {[1; 2]} := new_maximal ]}); [exact I| |].
    + replace (set_len (key_of (PFrozenset {[1; 3]})) - 1) with 1
        by (vm_compute; reflexivity).
      reflexivity.
    + vm_compute. reflexivity.
  - destruct (remove_maximal_simplex_rejects ascending as_created ascending_perm
                (PFrozenset {[1]}) edge_view) as (_ & _ & _ & H).
    apply (H 0%nat {[ {[1]} := new_face {[1; 2]}; {[2]} := new_face {[1; 2]} ]}
             (new_face {[1; 2]}) (VBool false)); [exact I| | | |reflexivity].
    + replace (set_len (key_of (PFrozenset {[1]})) - 1) with 0
        by (vm_compute; reflexivity).
      reflexivity.
    + apply lookup_insert_eq.
    + apply lookup_insert_eq.
Defined.


Lemma SimplexView_len_iter_witness :
  SimplexView_len (exec (insert (PSeq [1; 2]) ∅) empty_view)
  = list_len (SimplexView_iter (λ d, (map_to_list d).*1)
                (exec (insert (PSeq [1; 2]) ∅) empty_view)).
Proof.
  apply (SimplexView_len_iter (λ d, (map_to_list d).*1)).
  intros d. reflexivity.
Defined.

Lemma SimplexView_contains_iter_witness :
  SimplexView_contains ascending (PSeq [2; 1])
    (exec (insert (PSeq [1; 2]) ∅) empty_view)
  = (Return (bool_decide (key_of (PSeq [2; 1]) ∈
       SimplexView_iter (λ d, (map_to_list d).*1)
         (exec (insert (PSeq [1; 2]) ∅) empty_view))),
     exec (insert (PSeq [1; 2]) ∅) empty_view).
Proof.
  apply (SimplexView_contains_iter ascending ascending_perm
           (λ d, (map_to_list d).*1)).
  - intros d. reflexivity.
  - apply (insert_simplex_dims_ok ascending ascending_perm).
    apply dims_ok_empty_view.
  - simpl. apply NoDup_cons. split; [|apply NoDup_singleton].
    intros H%list_elem_of_singleton. discriminate H.
Defined.

Lemma built_I2_witness :
  ∃ n r,
    rec_at (snd (insert_simplex ascending (PFrozenset {[1; 2]}) ∅
                   (snd (insert_simplex ascending (PFrozenset {[1]}) ∅ empty_view))))
      n {[1; 2]} = Some r ∧
    I2_record r.
Proof.
  set (s1 := snd (insert_simplex ascending (PFrozenset {[1]}) ∅ empty_view)).
  assert (Hrun : insert_simplex ascending (PFrozenset {[1; 2]}) ∅ s1
                 = (Return tt, snd (insert_simplex ascending (PFrozenset {[1; 2]}) ∅ s1))).
  { apply run_Return. vm_compute. reflexivity. }
  destruct (insert_simplex_Return ascending ascending_perm _ _ _ _ Hrun)
    as (_ & n & d & r & [_ Hd]%slot_Some & Hr).
  assert (Hrec : rec_at (snd (insert_simplex ascending (PFrozenset {[1; 2]}) ∅ s1))
                   n {[1; 2]} = Some r).
  { unfold rec_at. rewrite Hd. exact Hr. }
  exists n, r. split; [exact Hrec|].
  refine (built_I2 ascending _ n {[1; 2]} r _ Hrec).
  assert (unreserved ∅) as Hno by (split; apply lookup_empty).
  apply (built_insert ascending s1 (PFrozenset {[1; 2]}) ∅); [|exact I|exact Hno].
  apply (built_insert ascending empty_view (PFrozenset {[1]}) ∅);
    [apply built_empty|exact I|exact Hno].
Defined.

Lemma remove_maximal_simplex_keys_witness :
  is_Some (rec_at (snd (remove_maximal_simplex ascending as_created
                          (PFrozenset {[1; 2]})
                          (snd (insert_simplex ascending (PFrozenset {[1; 2]}) ∅
                                  empty_view))))
             0 {[1]})
  ↔ is_Some (rec_at (snd (insert_simplex ascending (PFrozenset {[1; 2]}) ∅
                            empty_view)) 0 {[1]}) ∧
    {[1]} ≠ key_of (PFrozenset {[1; 2]}).
Proof.
  set (s := snd (insert_simplex ascending (PFrozenset {[1; 2]}) ∅ empty_view)).
  refine (remove_maximal_simplex_keys ascending as_created ascending_perm
            (PFrozenset {[1; 2]}) s _ _ _ 0%nat {[1]}).
  - apply (insert_simplex_dims_ok ascending ascending_perm).
    apply dims_ok_empty_view.
  - apply run_Return. vm_compute. reflexivity.
Defined.
